(** * msdf-atlasgen: the atlas assembly pipeline of [main.cpp]

    A shallow embedding of [src/msdf-atlasgen/main.cpp] and the properties
    its specification states about it.

    Conventions of the embedding.
    - [size_t] values are integers in [0, 2^64); every [size_t] operation
      of the source is written with its wrap-around ([SizeT.add],
      [SizeT.sub], [SizeT.mul]).  [int] and [unsigned int] values are
      carried by [Z] with the conversions written out.
    - [double] and [float] values are exact rationals ([Q]): rounding,
      infinities and NaN are outside the model.  The one place where the
      source can leave the rationals, the quotient of [build_charset], is
      recorded in the trace (event [Divide]) with both operands; when the
      divisor is 0 the quotient of the source is an infinity or a NaN, and
      the value the model goes on with ([Q]'s 0) means nothing.
    - What C++ leaves undefined is outside the model: the conversion of a
      non-finite value to [int] (records scaled after a zero divisor) and
      the dereferenced end iterator of [write_description] on an empty
      record set.  Statements that would depend on it exclude these
      inputs.
    - Console output, file output and the quotient of [build_charset] are
      events of a trace; a function of the source that prints or writes
      returns the list of events it produces together with its result.
    - The services of msdfgen, FreeType, boost and [binpacking.h] that the
      program calls are the fields of the class [Services].
    - The standard streams are modelled as far as the stream operators of
      the options use them ([istream], [read_size_t], [get],
      [write_size_t]): classic locale, decimal base, extraction as of
      C++11. *)

From Stdlib Require Import ZArith QArith Qround Qabs List Lia Bool Ascii String.
From Stdlib Require Import Permutation Sorted Lqa.
Import ListNotations.
Local Open Scope Z_scope.

(* ================================================================== *)
(** * Part I: the program *)
(* ================================================================== *)

(** ** Machine arithmetic *)

Module SizeT.
(** [size_t] of the target: 64-bit unsigned. *)
Definition modulus : Z := 2 ^ 64.
Definition wrap (z : Z) : Z := z mod modulus.
Definition add (a b : Z) : Z := wrap (a + b).
Definition sub (a b : Z) : Z := wrap (a - b).
Definition mul (a b : Z) : Z := wrap (a * b).
Definition div (a b : Z) : Z := a / b.
Definition in_range (z : Z) : Prop := 0 <= z < modulus.
End SizeT.

Module UInt.
(** [unsigned int]: 32-bit unsigned. *)
Definition modulus : Z := 2 ^ 32.
Definition wrap (z : Z) : Z := z mod modulus.
Definition add (a b : Z) : Z := wrap (a + b).
End UInt.

Module Int.
(** [int]: 32-bit two's complement. *)
Definition max_int : Z := 2 ^ 31 - 1.
(** Conversion of an integer to [int] (reduction modulo 2^32 into the
    signed range). *)
Definition of_Z (z : Z) : Z := (z + 2 ^ 31) mod 2 ^ 32 - 2 ^ 31.
(** [int( f )] and [static_cast<int>( f )] on a floating value:
    truncation toward zero. *)
Definition of_float (q : Q) : Z := Z.quot (Qnum q) (Z.pos (Qden q)).
End Int.

(** Modelled from the spec: msdfgen's [arithmetics.hpp] is not part of the
    sources at hand; [min] is the smaller of its two arguments and
    [clamp( n, b )] clamps [n] to the interval from 0 to [b]. *)
Module msdfgen.
Definition min (a b : Z) : Z := if b <? a then b else a.
Definition clamp (n b : Z) : Z :=
  if (0 <=? n) && (n <=? b) then n else (if 0 <? n then 1 else 0) * b.

Record FloatRGB := { r : Q; g : Q; b : Q }.

(** [Bitmap< T >]: a [width] x [height] grid of [T]; [pixel x y] is the
    source's [bitmap( x, y )]. *)
Record Bitmap (T : Type) := {
  bm_width : Z;
  bm_height : Z;
  pixel : Z -> Z -> T
}.
Arguments bm_width {T} _.
Arguments bm_height {T} _.
Arguments pixel {T} _ _ _.

(** [Vector2] *)
Definition Vector2 : Type := (Q * Q)%type.
Definition Vector2_div (v : Vector2) (s : Q) : Vector2 :=
  (fst v / s, snd v / s)%Q.
End msdfgen.

(** Modelled from the spec: [binpacking.h] is not part of the sources at
    hand.  A [box] has a position and an extent; [right] and [top] are the
    far edges; [scale] multiplies position and extent uniformly. *)
Module binpack.
Record box (T : Type) := { x_ : T; y_ : T; width_ : T; height_ : T }.
Arguments x_ {T} _.
Arguments y_ {T} _.
Arguments width_ {T} _.
Arguments height_ {T} _.

Definition boxd : Type := box Q.

Definition x {T} (b : box T) : T := x_ b.
Definition y {T} (b : box T) : T := y_ b.
Definition width {T} (b : box T) : T := width_ b.
Definition height {T} (b : box T) : T := height_ b.
Definition right (b : boxd) : Q := (x_ b + width_ b)%Q.
Definition top (b : boxd) : Q := (y_ b + height_ b)%Q.
Definition scale (b : boxd) (s : Q) : boxd :=
  {| x_ := (x_ b * s)%Q; y_ := (y_ b * s)%Q;
     width_ := (width_ b * s)%Q; height_ := (height_ b * s)%Q |}.
End binpack.

Import msdfgen binpack.

(** ** Data model (main.cpp, lines 44-104) *)

Inductive font_mode := msdf | sdf | pseudo_sdf.

Definition msdf_bitmap : Type := Bitmap FloatRGB.
Definition sdf_bitmap : Type := Bitmap Q.

(** [boost::variant< msdf_bitmap, sdf_bitmap >] *)
Inductive bitmap_variant :=
| holds_msdf (bm : msdf_bitmap)
| holds_sdf (bm : sdf_bitmap).

Record texture_dimensions := { tex_width : Z; tex_height : Z }.

(** [codepoint_range]: the half-open range [begin, end). *)
Record codepoint_range := { range_begin : Z; range_end : Z }.

Record settings := {
  codepoint_ranges : list codepoint_range;
  tex_dims : texture_dimensions;
  use_spans : bool;
  max_char_height : Z;
  auto_height : bool;
  spacing : Z;
  smoothpixels : Z;
  range : Q;
  mode : font_mode;
  font_file_name : string;
  output_file_name : string
}.

(** The assignment [cfg.max_char_height = h]. *)
Definition set_max_char_height (cfg : settings) (h : Z) : settings :=
  {| codepoint_ranges := codepoint_ranges cfg;
     tex_dims := tex_dims cfg;
     use_spans := use_spans cfg;
     max_char_height := h;
     auto_height := auto_height cfg;
     spacing := spacing cfg;
     smoothpixels := smoothpixels cfg;
     range := range cfg;
     mode := mode cfg;
     font_file_name := font_file_name cfg;
     output_file_name := output_file_name cfg |}.

(** Modelled from the spec: the bitmap that [Bitmap< T >( w, h )]
    constructs; its texels, until something is placed on them, are zero
    (background). *)
Definition blank_msdf (w h : Z) : msdf_bitmap :=
  {| bm_width := w; bm_height := h;
     pixel := fun _ _ => {| r := 0%Q; g := 0%Q; b := 0%Q |} |}.
Definition blank_sdf (w h : Z) : sdf_bitmap :=
  {| bm_width := w; bm_height := h; pixel := fun _ _ => 0%Q |}.

(** ** The external services *)

Class Services := {
  (** msdfgen's [Shape], opaque to this program *)
  Shape : Type;
  FontHandle : Type;
  FreetypeHandle : Type;
  (** [FT_Get_Char_Index( font->face, i ) != 0 && loadGlyph( shape, font,
      i, &advance )]: the outline and the advance of codepoint [i], or
      nothing *)
  loadGlyph : FontHandle -> Z -> option (Shape * Q);
  (** [shape.bounds( l, b, r, t )] on the extrema passed in: the updated
      [(l, b, r, t)] *)
  Shape_bounds : Shape -> Q * Q * Q * Q -> Q * Q * Q * Q;
  Shape_normalize : Shape -> Shape;
  edgeColoringSimple : Shape -> Q -> Shape;
  generateMSDF : msdf_bitmap -> Shape -> Q -> Q -> Vector2 -> msdf_bitmap;
  generateSDF : sdf_bitmap -> Shape -> Q -> Q -> Vector2 -> sdf_bitmap;
  generatePseudoSDF : sdf_bitmap -> Shape -> Q -> Q -> Vector2 -> sdf_bitmap;
  (** [dst.place( x, y, src )] *)
  place_msdf : msdf_bitmap -> Z -> Z -> msdf_bitmap -> msdf_bitmap;
  place_sdf : sdf_bitmap -> Z -> Z -> sdf_bitmap -> sdf_bitmap;
  (** [bin_pack_max_rect( rects, width, height, spacing )]: the verdict,
      and the rectangles as the call leaves them *)
  bin_pack_max_rect : list (box Z) -> Z -> Z -> Z -> bool * list (box Z);
  initializeFreetype : option FreetypeHandle;
  loadFont : FreetypeHandle -> string -> option FontHandle
}.

(** ** Artifacts and the trace *)

(** One element of [font_codepoint_spans]. *)
Record bitmap_span := {
  span_start : Z;
  span_stop : Z;                 (* member [end] *)
  span_cumulative : Z
}.

(** One element of [font_codepoint_infos]. *)
Record bitmap_glyph := {
  atlas_x : Z; atlas_y : Z;
  atlas_w : Z; atlas_h : Z;
  minx : Q; maxx : Q;
  miny : Q; maxy : Q;
  glyph_advance : Q
}.

(** The line [{ 0, 0, 0, 0, 0, 0, 0, 0, 0 }]. *)
Definition zero_glyph : bitmap_glyph :=
  {| atlas_x := 0; atlas_y := 0; atlas_w := 0; atlas_h := 0;
     minx := 0%Q; maxx := 0%Q; miny := 0%Q; maxy := 0%Q;
     glyph_advance := 0%Q |}.

(** What [write_description] puts into [<name>_desc.c].  [info_min_y] and
    [info_max_y] are absent when there is no record: the source then
    dereferences the end iterator. *)
Record description := {
  info_smooth_pixels : Z;
  info_min_y : option Q;
  info_max_y : option Q;
  font_codepoint_spans : option (list bitmap_span);
  font_codepoint_infos : list bitmap_glyph;
  bitmap_chars_count : Z
}.

(** What [write_image] puts into [<name>_img.c]: the header fields and
    the rows of channel bytes. *)
Record font_image := {
  image_width : Z;
  image_height : Z;
  char_border : Z;
  image_spacing : Z;
  channels : Z;
  pixels : list (list Z)
}.

Inductive event :=
| Trying (h : Z)                         (* "trying <h>" *)
| PackingAtlas                           (* "packing atlas..." *)
| UsingCharHeight (h : Z)                (* "using char height <h>." *)
| BuildingChars                          (* "building chars..." *)
| PackingFailed                          (* "error: packing atlas failed." *)
| CouldNotOpenFont (name : string)       (* "Could not open font ..." *)
| Message (text : string)                (* help text, [err.what()] *)
| Divide (num : Z) (den : Q)             (* line 321 computes num / den *)
| WriteDescription (file : string) (d : description)
| SavePng (file : string) (bm : bitmap_variant)
| WriteImage (file : string) (img : font_image).

(** ** The search of the largest char height (run, lines 373-393) *)

(** The variables of the loop: [range.first], [range.second] and
    [highest]. *)
Record search_state := {
  range_first : Z;
  range_second : Z;
  highest : Z
}.

(** Lines 374-375. *)
Definition search_init (cfg : settings) : search_state :=
  {| range_first := 0;
     range_second := max_char_height cfg;
     highest := SizeT.add (tex_height (tex_dims cfg)) 1 |}.

(** Lines 384-390: the two branches on the verdict of [build_atlas]. *)
Definition search_step (ok : bool) (s : search_state) : search_state :=
  if ok then
    let first := range_second s in
    {| range_first := first;
       range_second := min (SizeT.mul first 2) (SizeT.sub (highest s) 1);
       highest := highest s |}
  else
    let highest' := min (highest s) (range_second s) in
    {| range_first := range_first s;
       range_second :=
         SizeT.add (range_first s)
           (SizeT.div (SizeT.sub (range_second s) (range_first s)) 2);
       highest := highest' |}.

(** The [while] loop of lines 377-391.  [probe i h] stands for the body's
    calls of [build_charset] and [build_atlas] at the candidate [h] in
    iteration [i]: their verdict and their trace.  The result is the final
    [range.first] and the trace of the loop; [None] when [fuel] iterations
    do not reach the exit. *)
Fixpoint auto_height_search (fuel : nat)
  (probe : nat -> Z -> bool * list event) (i : nat) (s : search_state)
  : option (Z * list event) :=
  if range_first s =? range_second s then Some (range_first s, [])
  else
    match fuel with
    | O => None
    | S fuel' =>
        let '(ok, ev) := probe i (range_second s) in
        match auto_height_search fuel' probe (S i) (search_step ok s) with
        | Some (h, evs) => Some (h, ev ++ evs)
        | None => None
        end
    end.

(** ** Records *)

Section Program.
Context {services : Services}.

Record char_info := {
  codepoint : Z;                 (* int *)
  bbox : boxd;
  placement : box Z;             (* box< size_t > *)
  shape : Shape;
  translation : Vector2;
  advance : Q;
  bitmap : bitmap_variant
}.

(** The constructor [char_info( cp, box, s, adv )]: the members it does
    not name are default-constructed (the variant holds its first
    alternative). *)
Definition new_char_info (cp : Z) (bx : boxd) (s : Shape) (adv : Q)
  : char_info :=
  {| codepoint := cp; bbox := bx;
     placement := {| x_ := 0; y_ := 0; width_ := 0; height_ := 0 |};
     shape := s; translation := (0%Q, 0%Q); advance := adv;
     bitmap := holds_msdf (blank_msdf 0 0) |}.

(** ** Glyph collection (lines 107-116, 291-310) *)

(** [bounds( shape )] *)
Definition bounds (s : Shape) : boxd :=
  let '(l, b, r, t) :=
    Shape_bounds s (500000%Q, 5000000%Q, (-5000000)%Q, (-5000000)%Q) in
  {| x_ := l; y_ := b; width_ := (r - l)%Q; height_ := (t - b)%Q |}.

(** The values [begin, begin+1, ..., end-1] of the inner loop. *)
Definition codepoints_of (rg : codepoint_range) : list Z :=
  map (fun k => range_begin rg + Z.of_nat k)
      (seq 0 (Z.to_nat (range_end rg - range_begin rg))).

Definition read_shape (font : FontHandle) (i : Z) : list char_info :=
  match loadGlyph font i with
  | Some (shape, advance) =>
      let thebox := bounds shape in
      let shape := Shape_normalize shape in
      if Qlt_le_dec 0 (width thebox)
      then [new_char_info (Int.of_Z i) thebox shape advance]
      else []
  | None => []
  end.

Definition read_shapes (font : FontHandle) (cfg : settings)
  : list char_info :=
  flat_map (fun rg => flat_map (read_shape font) (codepoints_of rg))
           (codepoint_ranges cfg).

(** ** Scaling and rendering (lines 312-359) *)

(** [std::max( a, b )] on doubles: [b] when [a < b], else [a]. *)
Definition std_max (a b : Q) : Q := if Qlt_le_dec a b then b else a.

(** Lines 315-319. *)
Definition max_bbox_height (charinfos : list char_info) : Q :=
  fold_left (fun maxheight ch => std_max (height (bbox ch)) maxheight)
            charinfos 0%Q.

(** [ceil] of a double stored into a [float]. *)
Definition ceil (q : Q) : Q := inject_Z (Qceiling q).

(** The [switch] of lines 339-353. *)
Definition render (cfg : settings) (ch : char_info) (w h : Z)
  (scaling : Q) (offset : Vector2) : char_info :=
  match mode cfg with
  | msdf =>
      let shape' := edgeColoringSimple (shape ch) (5 # 2) in
      {| codepoint := codepoint ch; bbox := bbox ch;
         placement := placement ch; shape := shape';
         translation := translation ch; advance := advance ch;
         bitmap := holds_msdf
           (generateMSDF (blank_msdf w h) shape' (range cfg) scaling
                         (Vector2_div offset scaling)) |}
  | sdf =>
      {| codepoint := codepoint ch; bbox := bbox ch;
         placement := placement ch; shape := shape ch;
         translation := translation ch; advance := advance ch;
         bitmap := holds_sdf
           (generateSDF (blank_sdf w h) (shape ch) (range cfg) scaling
                        (Vector2_div offset scaling)) |}
  | pseudo_sdf =>
      {| codepoint := codepoint ch; bbox := bbox ch;
         placement := placement ch; shape := shape ch;
         translation := translation ch; advance := advance ch;
         bitmap := holds_sdf
           (generatePseudoSDF (blank_sdf w h) (shape ch) (range cfg) scaling
                              (Vector2_div offset scaling)) |}
  end.

(** The body of the loop of lines 323-356. *)
Definition scale_char (cfg : settings) (scaling : Q) (build_images : bool)
  (ch : char_info) : char_info :=
  let bbox' := scale (bbox ch) scaling in
  let advance' := (advance ch * scaling)%Q in
  let ceil_width := ceil (width bbox') in
  let ceil_height := ceil (height bbox') in
  let border := inject_Z (SizeT.mul 2 (smoothpixels cfg)) in
  let w := Int.of_float (ceil_width + border)%Q in
  let h := Int.of_float (ceil_height + border)%Q in
  let offset : Vector2 :=
    ((- x bbox' + inject_Z (smoothpixels cfg))%Q,
     (- y bbox' + inject_Z (smoothpixels cfg))%Q) in
  let ch' :=
    {| codepoint := codepoint ch; bbox := bbox';
       placement := {| x_ := x_ (placement ch); y_ := y_ (placement ch);
                       width_ := SizeT.wrap w; height_ := SizeT.wrap h |};
       shape := shape ch; translation := offset; advance := advance';
       bitmap := bitmap ch |} in
  if build_images then render cfg ch' w h scaling offset else ch'.

(** [build_charset( font, cfg, scaling, build_images )]: the records, the
    value left in [scaling], and the trace. *)
Definition build_charset (font : FontHandle) (cfg : settings)
  (build_images : bool) : list char_info * Q * list event :=
  let charinfos := read_shapes font cfg in
  let maxheight := max_bbox_height charinfos in
  let scaling := (inject_Z (max_char_height cfg) / maxheight)%Q in
  (map (scale_char cfg scaling build_images) charinfos, scaling,
   [Divide (max_char_height cfg) maxheight]).

(** ** Packing (lines 361-369) *)

(** The packer writes through the pointers of [placerefs]: each record
    takes the rectangle the call left at its position. *)
Fixpoint store_placements (charinfos : list char_info)
  (rects : list (box Z)) : list char_info :=
  match charinfos, rects with
  | ch :: charinfos', rc :: rects' =>
      {| codepoint := codepoint ch; bbox := bbox ch; placement := rc;
         shape := shape ch; translation := translation ch;
         advance := advance ch; bitmap := bitmap ch |}
      :: store_placements charinfos' rects'
  | _, _ => charinfos
  end.

Definition build_atlas (charinfos : list char_info) (cfg : settings)
  : bool * list char_info :=
  let placerefs := map placement charinfos in
  let '(ok, rects) :=
    bin_pack_max_rect placerefs (tex_width (tex_dims cfg))
                      (tex_height (tex_dims cfg)) (spacing cfg) in
  (ok, store_placements charinfos rects).

(** ** The description (lines 118-213) *)

(** [std::sort] with the comparator [a.codepoint < b.codepoint].  The
    standard leaves the order of records with equal codepoints open; the
    model keeps their order of arrival. *)
Fixpoint insert_by_codepoint (ch : char_info) (sorted : list char_info)
  : list char_info :=
  match sorted with
  | [] => [ch]
  | c :: sorted' =>
      if codepoint c <=? codepoint ch
      then c :: insert_by_codepoint ch sorted'
      else ch :: sorted
  end.

Definition sort_by_codepoint (charinfos : list char_info) : list char_info :=
  fold_left (fun sorted ch => insert_by_codepoint ch sorted) charinfos [].

Definition Qlt_bool (a b : Q) : bool := if Qlt_le_dec a b then true else false.

(** [std::max_element] and [std::min_element] with a comparator [less]:
    the first greatest, the first smallest; nothing on an empty range. *)
Definition max_element {A : Type} (less : A -> A -> bool) (l : list A)
  : option A :=
  match l with
  | [] => None
  | a :: l' =>
      Some (fold_left (fun best c => if less best c then c else best) l' a)
  end.

Definition min_element {A : Type} (less : A -> A -> bool) (l : list A)
  : option A :=
  match l with
  | [] => None
  | a :: l' =>
      Some (fold_left (fun best c => if less c best then c else best) l' a)
  end.

(** The inner loop of line 159, started behind a record of codepoint
    [prev]: how many further records continue the run, and the records
    behind the run. *)
Fixpoint span_extent (prev : Z) (rest : list char_info)
  : nat * list char_info :=
  match rest with
  | [] => (O, [])
  | c :: rest' =>
      if codepoint c =? prev + 1
      then let '(n, behind) := span_extent (codepoint c) rest' in (S n, behind)
      else (O, rest)
  end.

(** The outer loop of lines 157-170 on the records from [span_begin] on.
    [span_begin] moves forward in every iteration, so as many iterations
    as there are records suffice. *)
Fixpoint write_spans (fuel : nat) (cumulative : Z)
  (charinfos : list char_info) : list bitmap_span :=
  match fuel, charinfos with
  | S fuel', ch :: rest =>
      let '(n, behind) := span_extent (codepoint ch) rest in
      let span_size := UInt.wrap (Z.of_nat (S n)) in
      {| span_start := codepoint ch;
         span_stop := UInt.add (codepoint ch) span_size;
         span_cumulative := cumulative |}
      :: write_spans fuel' (UInt.add cumulative span_size) behind
  | _, _ => []
  end.

(** Lines 195-206: the entry of a record.  The text keeps four decimals
    of the floating values; the model keeps the values. *)
Definition glyph_of (info : char_info) : bitmap_glyph :=
  {| atlas_x := x (placement info);
     atlas_y := y (placement info);
     atlas_w := width (placement info);
     atlas_h := height (placement info);
     minx := x (bbox info);
     maxx := right (bbox info);
     miny := y (bbox info);
     maxy := top (bbox info);
     glyph_advance := advance info |}.

(** The loop of lines 187-209: the entries written, and the final
    [last_written]. *)
Fixpoint write_glyphs (spans : bool) (last_written : Z)
  (charinfos : list char_info) : list bitmap_glyph * Z :=
  match charinfos with
  | [] => ([], last_written)
  | info :: rest =>
      let filler :=
        if spans then []
        else repeat zero_glyph
               (Z.to_nat (SizeT.wrap (codepoint info) - last_written)) in
      let '(written, last) :=
        write_glyphs spans (SizeT.wrap (codepoint info + 1)) rest in
      (filler ++ glyph_of info :: written, last)
  end.

(** [write_description( charinfos, cfg, scaling )]: the vector as the
    call leaves it (sorted), and the trace. *)
Definition write_description (charinfos : list char_info) (cfg : settings)
  (scaling : Q) : list char_info * list event :=
  let charinfos := sort_by_codepoint charinfos in
  let max_y :=
    max_element (fun a b => Qlt_bool (top (bbox a)) (top (bbox b)))
                charinfos in
  let min_y :=
    min_element (fun a b => Qlt_bool (y (bbox a)) (y (bbox b))) charinfos in
  let spans :=
    if use_spans cfg
    then Some (write_spans (List.length charinfos) 0 charinfos)
    else None in
  let '(glyphs, last_written) := write_glyphs (use_spans cfg) 0 charinfos in
  (charinfos,
   [WriteDescription (output_file_name cfg ++ "_desc.c")
      {| info_smooth_pixels := smoothpixels cfg;
         info_min_y := option_map (fun ch => y (bbox ch)) min_y;
         info_max_y := option_map (fun ch => top (bbox ch)) max_y;
         font_codepoint_spans := spans;
         font_codepoint_infos := glyphs;
         bitmap_chars_count := SizeT.add last_written 1 |}]).

(** ** The image (lines 215-289) *)

(** [boost::get< T >( v )].  On the other alternative boost throws; the
    records of the committed run hold the alternative of [cfg.mode]. *)
Definition get_msdf (v : bitmap_variant) : msdf_bitmap :=
  match v with holds_msdf bm => bm | holds_sdf _ => blank_msdf 0 0 end.
Definition get_sdf (v : bitmap_variant) : sdf_bitmap :=
  match v with holds_sdf bm => bm | holds_msdf _ => blank_sdf 0 0 end.

(** [clamp( int( v * 0x100 ), 0xff )] *)
Definition channel_byte (v : Q) : Z :=
  clamp (Int.of_float (v * inject_Z 256)%Q) 255.

(** The values [0, 1, ..., n-1] of a counting loop. *)
Definition upto (n : Z) : list Z := map Z.of_nat (seq 0 (Z.to_nat n)).

(** Lines 220-237. *)
Definition compose (charinfos : list char_info) (cfg : settings)
  : bitmap_variant :=
  let width := tex_width (tex_dims cfg) in
  let height := tex_height (tex_dims cfg) in
  match mode cfg with
  | sdf | pseudo_sdf =>
      holds_sdf
        (fold_left
           (fun bm ch => place_sdf bm (x (placement ch)) (y (placement ch))
                                   (get_sdf (bitmap ch)))
           charinfos (blank_sdf width height))
  | msdf =>
      holds_msdf
        (fold_left
           (fun bm ch => place_msdf bm (x (placement ch)) (y (placement ch))
                                    (get_msdf (bitmap ch)))
           charinfos (blank_msdf width height))
  end.

(** Lines 259-286: one row of bytes per [y]. *)
Definition pixel_rows (m : font_mode) (bitmap : bitmap_variant)
  (width height : Z) : list (list Z) :=
  match m with
  | msdf =>
      let msdf := get_msdf bitmap in
      map (fun y =>
             flat_map (fun x =>
                         [channel_byte (r (pixel msdf x y));
                          channel_byte (g (pixel msdf x y));
                          channel_byte (b (pixel msdf x y))])
                      (upto width))
          (upto height)
  | sdf | pseudo_sdf =>
      let sdf := get_sdf bitmap in
      map (fun y => map (fun x => channel_byte (pixel sdf x y)) (upto width))
          (upto height)
  end.

Definition write_image (charinfos : list char_info) (cfg : settings)
  : list event :=
  let width := tex_width (tex_dims cfg) in
  let height := tex_height (tex_dims cfg) in
  let bitmap := compose charinfos cfg in
  [SavePng (output_file_name cfg ++ "_img.png") bitmap;
   WriteImage (output_file_name cfg ++ "_img.c")
     {| image_width := width;
        image_height := height;
        char_border := smoothpixels cfg;
        image_spacing := spacing cfg;
        channels := match mode cfg with msdf => 3 | _ => 1 end;
        pixels := pixel_rows (mode cfg) bitmap width height |}].

(** ** The run (lines 371-409) *)

(** The body of the search loop, lines 378-384, at the candidate [h]. *)
Definition probe (font : FontHandle) (cfg : settings) (h : Z)
  : bool * list event :=
  let cfg := set_max_char_height cfg h in
  let '(charinfos, _, ev) := build_charset font cfg false in
  let '(ok, _) := build_atlas charinfos cfg in
  (ok, Trying h :: ev ++ [PackingAtlas]).

(** Lines 395-408: the committed run at [cfg.max_char_height]. *)
Definition run_committed (font : FontHandle) (cfg : settings) : list event :=
  let '(charinfos, scaling, ev) := build_charset font cfg true in
  let '(ok, charinfos) := build_atlas charinfos cfg in
  UsingCharHeight (max_char_height cfg) :: BuildingChars :: ev
  ++ PackingAtlas
  :: (if negb ok then [PackingFailed]
      else
        let '(charinfos, ev_desc) := write_description charinfos cfg scaling in
        ev_desc ++ write_image charinfos cfg).

(** [run( font, cfg )]; [None] when the search does not end within
    [fuel] iterations. *)
Definition run (fuel : nat) (font : FontHandle) (cfg : settings)
  : option (list event) :=
  if auto_height cfg then
    match auto_height_search fuel (fun _ => probe font cfg) 0
                             (search_init cfg) with
    | Some (h, evs) =>
        Some (evs ++ run_committed font (set_max_char_height cfg h))
    | None => None
    end
  else Some (run_committed font cfg).

(** ** Options and main (lines 485-540) *)

(** What boost's [parse_command_line], [store] and [notify] make of the
    arguments: they throw a [po::error], or fill [cfg] (defaults
    included) and tell whether [--help] was given, with the text that
    [desc.print] shows. *)
Inductive parsed :=
| po_error (what : string)
| po_values (help : option string) (cfg : settings).

(** [parse_options]: [inl what] for a thrown [po::error], else the
    returned flag with [cfg]; and its trace. *)
Definition parse_options (p : parsed)
  : (string + bool * settings) * list event :=
  match p with
  | po_error what => (inl what, [])
  | po_values (Some text) cfg => (inr (false, cfg), [Message text])
  | po_values None cfg => (inr (true, cfg), [])
  end.

(** [main]: the exit status and the trace; [None] when the search of
    [run] does not end within [fuel] iterations. *)
Definition main (fuel : nat) (p : parsed) : option (Z * list event) :=
  match parse_options p with
  | (inl what, ev) => Some (0, ev ++ [Message what])
  | (inr (false, _), ev) => Some (0, ev)
  | (inr (true, cfg), ev) =>
      match initializeFreetype with
      | Some ft =>
          match loadFont ft (font_file_name cfg) with
          | Some font =>
              match run fuel font cfg with
              | Some ev_run => Some (0, ev ++ ev_run)
              | None => None
              end
          | None => Some (0, ev ++ [CouldNotOpenFont (font_file_name cfg)])
          end
      | None => Some (0, ev)
      end
  end.

End Program.

(** ** The search as the specification words it (section 4.6) *)

Module Spec.





(** "round(value*256) clamped to [0,255]" *)
Definition round (q : Q) : Z := Qfloor (q + (1 # 2))%Q.
Definition channel_byte (v : Q) : Z :=
  Z.max 0 (Z.min 255 (round (v * inject_Z 256)%Q)).

End Spec.


(** The states the loop of [run] passes through: [reachable probe cfg i s]
    when [s] is the state before the [i]-th probe. *)
Inductive reachable (probe : nat -> Z -> bool * list event) (cfg : settings)
  : nat -> search_state -> Prop :=
| reachable_init : reachable probe cfg O (search_init cfg)
| reachable_step (i : nat) (s : search_state) :
    reachable probe cfg i s ->
    range_first s <> range_second s ->
    reachable probe cfg (S i)
              (search_step (fst (probe i (range_second s))) s).

(** ** The regime of the search *)

(** The configurations and probes the search is made for: the texture is
    less than 2^63 texels high, and either the search starts at or below
    the texture height or no probe above the texture height succeeds (the
    reason why [highest] starts at the texture height plus one). *)
Definition search_regime (probe : nat -> Z -> bool * list event)
  (cfg : settings) : Prop :=
  SizeT.in_range (max_char_height cfg) /\
  0 <= tex_height (tex_dims cfg) < 2 ^ 63 /\
  (max_char_height cfg <= tex_height (tex_dims cfg) \/
   forall i h, tex_height (tex_dims cfg) < h -> fst (probe i h) = false).

Definition search_inv (probe : nat -> Z -> bool * list event)
  (cfg : settings) (s : search_state) : Prop :=
  0 <= range_first s <= range_second s /\
  range_second s <= Z.max (max_char_height cfg) (tex_height (tex_dims cfg)) /\
  range_first s <= tex_height (tex_dims cfg) /\
  highest s <= tex_height (tex_dims cfg) + 1 /\
  (range_second s < highest s \/
   (range_first s = 0 /\ highest s = tex_height (tex_dims cfg) + 1 /\
    forall i h, tex_height (tex_dims cfg) < h -> fst (probe i h) = false)).

(** The variant of the loop: lexicographic in the room left above
    [range.first] and the width of the range. *)
Definition search_measure (cfg : settings) (s : search_state) : Z :=
  (tex_height (tex_dims cfg) - range_first s)
  * (Z.max (max_char_height cfg) (tex_height (tex_dims cfg)) + 1)
  + (range_second s - range_first s).


(** ** Notions used by the statements *)

(** What truncation and the clamp make of a field value in [0,1]. *)
Definition floor_byte (v : Q) : Z := Z.min 255 (Qfloor (v * inject_Z 256)%Q).

Definition unit_interval (v : Q) : Prop := (0 <= v <= 1)%Q.

(** The events that write a file, and the file they write. *)
Definition file_of (e : event) : option string :=
  match e with
  | WriteDescription file _ => Some file
  | SavePng file _ => Some file
  | WriteImage file _ => Some file
  | _ => None
  end.

Definition files_written (tr : list event) : list string :=
  flat_map (fun e => match file_of e with Some f => [f] | None => [] end) tr.


Section Notions.
Context {services : Services}.



End Notions.


Section Serializer_notions.
Context {services : Services}.

(** The largest codepoint of a record set, -1 for the empty set. *)
Definition max_codepoint (charinfos : list char_info) : Z :=
  fold_right (fun ch m => Z.max (codepoint ch) m) (-1) charinfos.

(** The record sets the serializer is made for: codepoints that are
    pairwise distinct, not negative, and below the largest [int]. *)
Definition distinct_codepoints (charinfos : list char_info) : Prop :=
  NoDup (map codepoint charinfos) /\
  Forall (fun ch => 0 <= codepoint ch < Int.max_int) charinfos.

(** The spans cut the indices from [from] up to [total] into adjacent,
    non-empty pieces: each span starts at the index where the one before
    it ends. *)
Fixpoint partitions (spans : list bitmap_span) (from total : Z) : Prop :=
  match spans with
  | [] => from = total
  | sp :: spans' =>
      span_cumulative sp = from /\
      span_start sp < span_stop sp /\
      partitions spans' (from + (span_stop sp - span_start sp)) total
  end.

(** The description that [write_description] writes. *)
Definition description_of (charinfos : list char_info) (cfg : settings)
  (scaling : Q) : option description :=
  match snd (write_description charinfos cfg scaling) with
  | [WriteDescription _ d] => Some d
  | _ => None
  end.

Definition codepoint_le (a b : char_info) : Prop := codepoint a <= codepoint b.
Definition codepoint_lt (a b : char_info) : Prop := codepoint a < codepoint b.

End Serializer_notions.


(** ** The stream operators of the options (lines 413-483) *)

(** [operator>>( stream, mode )], on the token that [stream >> token]
    extracts: a token that names no mode leaves [mode] as it is. *)
Definition read_font_mode (token : string) (mode : font_mode) : font_mode :=
  if String.eqb token "msdf" then msdf
  else if String.eqb token "sdf" then sdf
  else if String.eqb token "psdf" then pseudo_sdf
  else mode.

(** [operator<<( stream, mode )]: the text written. *)
Definition write_font_mode (mode : font_mode) : string :=
  match mode with
  | msdf => "msdf"
  | sdf => "sdf"
  | pseudo_sdf => "psdf"
  end.


(** The standard streams, as far as these operators use them: an input
    stream is the text not yet read and the two state bits that the
    extractions set. *)
Record istream := { unread : list ascii; eofbit : bool; failbit : bool }.

Definition good (s : istream) : bool := negb (eofbit s) && negb (failbit s).

(** A fresh stream holding [text]. *)
Definition istream_of (text : list ascii) : istream :=
  {| unread := text; eofbit := false; failbit := false |}.

(** [std::isspace] of the classic locale. *)
Definition isspace (c : ascii) : bool :=
  let n := Z.of_nat (nat_of_ascii c) in
  (n =? 32) || ((9 <=? n) && (n <=? 13)).

Fixpoint skip_space (text : list ascii) : list ascii :=
  match text with
  | c :: rest => if isspace c then skip_space rest else text
  | [] => []
  end.

Definition digit_of (c : ascii) : option Z :=
  let n := Z.of_nat (nat_of_ascii c) in
  if (48 <=? n) && (n <=? 57) then Some (n - 48) else None.

Definition digit_char (d : Z) : ascii := ascii_of_nat (Z.to_nat (48 + d)).

(** The digits at the head of [text] accumulated in base 10: the value,
    whether a digit was read, and the text left. *)
Fixpoint read_digits (text : list ascii) (acc : Z) (any : bool)
  : Z * bool * list ascii :=
  match text with
  | c :: rest =>
      match digit_of c with
      | Some d => read_digits rest (acc * 10 + d) true
      | None => (acc, any, text)
      end
  | [] => (acc, any, [])
  end.

Definition at_end (text : list ascii) : bool :=
  match text with [] => true | _ => false end.

(** [stream >> n] for a [size_t n] (C++11, decimal, classic locale).  A
    stream that is not good fails and leaves [n]; leading white space is
    skipped, and a stream that ends there fails and leaves [n]; a sign
    and the digits that follow are read; without a digit the extraction
    fails with 0, a value above the largest [size_t] fails with that
    largest value, and a value after '-' is negated in [size_t]; the bit
    [eofbit] is set when the text ends with the digits. *)
Definition read_size_t (s : istream) (n : Z) : istream * Z :=
  if good s then
    match skip_space (unread s) with
    | [] => ({| unread := []; eofbit := true; failbit := true |}, n)
    | c :: rest =>
        let negative := Ascii.eqb c "-" in
        let digits := if negative || Ascii.eqb c "+" then rest else c :: rest in
        let '(v, any, rest) := read_digits digits 0 false in
        if negb any then
          ({| unread := rest; eofbit := at_end rest; failbit := true |}, 0)
        else if SizeT.modulus <=? v then
          ({| unread := rest; eofbit := at_end rest; failbit := true |},
           SizeT.modulus - 1)
        else
          ({| unread := rest; eofbit := at_end rest; failbit := false |},
           if negative then SizeT.wrap (- v) else v)
    end
  else ({| unread := unread s; eofbit := eofbit s; failbit := true |}, n).

(** [stream.get()]: the next character, or nothing (the value [EOF]) with
    both bits set at the end of the text. *)
Definition get (s : istream) : istream * option ascii :=
  if good s then
    match unread s with
    | c :: rest =>
        ({| unread := rest; eofbit := false; failbit := false |}, Some c)
    | [] => ({| unread := []; eofbit := true; failbit := true |}, None)
    end
  else ({| unread := unread s; eofbit := eofbit s; failbit := true |}, None).

(** [stream << n] for a [size_t n]: the decimal digits, the most
    significant first; a [size_t] has at most 20 of them. *)
Fixpoint write_digits (count : nat) (n : Z) (tail : list ascii)
  : list ascii :=
  match count with
  | O => tail
  | S count =>
      let tail := digit_char (n mod 10) :: tail in
      if n <? 10 then tail else write_digits count (n / 10) tail
  end.

Definition write_size_t (n : Z) : list ascii := write_digits 20 n [].

Definition is_char (c : ascii) (got : option ascii) : bool :=
  match got with
  | Some c' => Ascii.eqb c' c
  | None => false
  end.

(** [operator>>( stream, range )], lines 446-452. *)
Definition read_codepoint_range (s : istream) (rg : codepoint_range)
  : istream * codepoint_range :=
  let '(s, b) := read_size_t s (range_begin rg) in
  let rg := {| range_begin := b; range_end := range_end rg |} in
  let '(s, got) := get s in
  if negb (is_char "-" got) then (s, rg)
  else
    let '(s, e) := read_size_t s (range_end rg) in
    (s, {| range_begin := range_begin rg; range_end := e |}).

(** [operator<<( stream, range )], lines 454-458. *)
Definition write_codepoint_range (rg : codepoint_range) : list ascii :=
  write_size_t (range_begin rg) ++ "-"%char :: write_size_t (range_end rg).

(** [operator>>( stream, dims )], lines 460-466. *)
Definition read_texture_dimensions (s : istream) (dims : texture_dimensions)
  : istream * texture_dimensions :=
  let '(s, w) := read_size_t s (tex_width dims) in
  let dims := {| tex_width := w; tex_height := tex_height dims |} in
  let '(s, got) := get s in
  if negb (is_char "x" got) then (s, dims)
  else
    let '(s, h) := read_size_t s (tex_height dims) in
    (s, {| tex_width := tex_width dims; tex_height := h |}).

(** [operator<<( stream, dims )], lines 468-472. *)
Definition write_texture_dimensions (dims : texture_dimensions)
  : list ascii :=
  write_size_t (tex_width dims) ++ "x"%char :: write_size_t (tex_height dims).

(** [operator<<( stream, ranges )], lines 474-483: the ranges follow one
    another without a separator. *)
Definition write_codepoint_ranges (ranges : list codepoint_range)
  : list ascii :=
  "{"%char :: flat_map write_codepoint_range ranges ++ ["}"%char].


(** ** Notions used by the further properties *)

(** The codepoints of a range, and ranges that do not overlap and hold
    codepoints an [int] can take (below its largest value). *)
Definition in_codepoint_range (rg : codepoint_range) (i : Z) : Prop :=
  range_begin rg <= i < range_end rg.

Definition ranges_disjoint (ranges : list codepoint_range) : Prop :=
  ForallOrdPairs
    (fun a b => forall i, in_codepoint_range a i -> ~ in_codepoint_range b i)
    ranges.

Definition ranges_of_int (ranges : list codepoint_range) : Prop :=
  Forall (fun rg => 0 <= range_begin rg /\ range_end rg <= Int.max_int)
         ranges.

(** A probe of the search at the candidate [c] with the verdict [v]: the
    loop reaches a state whose [range.second] is [c], and the probe it
    makes there says [v]. *)
Definition probed (p : nat -> Z -> bool * list event) (cfg : settings)
  (c : Z) (v : bool) : Prop :=
  exists i s,
    reachable p cfg i s /\
    range_first s <> range_second s /\
    range_second s = c /\
    fst (p i c) = v.

Section Further_notions.
Context {services : Services}.

(** Two records that differ in nothing but the shape and the bitmap. *)
Definition same_geometry (a b : char_info) : Prop :=
  codepoint a = codepoint b /\
  bbox a = bbox b /\
  placement a = placement b /\
  translation a = translation b /\
  advance a = advance b.

(** Two records that differ in nothing but the placement. *)
Definition same_but_placement (a b : char_info) : Prop :=
  codepoint a = codepoint b /\
  bbox a = bbox b /\
  shape a = shape b /\
  translation a = translation b /\
  advance a = advance b /\
  bitmap a = bitmap b.

(** The extrema that [bounds] hands to [shape.bounds]. *)
Definition sentinel_extrema : Q * Q * Q * Q :=
  (500000%Q, 5000000%Q, (-5000000)%Q, (-5000000)%Q).

End Further_notions.


(** The text does not go on with a digit. *)
Definition no_digit_ahead (text : list ascii) : Prop :=
  match text with
  | c :: _ => digit_of c = None
  | [] => True
  end.

(** The value of a [size_t]. *)
Definition size_t_value (n : Z) : Prop := 0 <= n < SizeT.modulus.

(** ** Sample services and inputs *)

Module Samples.


(** The defaults with the given ranges, texture, char height and
    flags. *)
Definition sample_settings (ranges : list codepoint_range) (tex : Z)
  (char_height : Z) (auto spans : bool) (m : font_mode) : settings :=
  {| codepoint_ranges := ranges;
     tex_dims := {| tex_width := tex; tex_height := tex |};
     use_spans := spans;
     max_char_height := char_height;
     auto_height := auto;
     spacing := 2;
     smoothpixels := 2;
     range := 1%Q;
     mode := m;
     font_file_name := "UbuntuMono-R.ttf";
     output_file_name := "bitmap_font" |}.

(** A toy outline: its extrema [(l, b, r, t)], or no contour. *)
Definition toy_shape : Type := option (Q * Q * Q * Q).
Definition toy_font : Type := Z -> option (toy_shape * Q).

Definition toy_place {T : Type} (dst : Bitmap T) (x0 y0 : Z)
  (src : Bitmap T) : Bitmap T :=
  {| bm_width := bm_width dst;
     bm_height := bm_height dst;
     pixel := fun x y =>
       if (x0 <=? x) && (x <? x0 + bm_width src)
          && (y0 <=? y) && (y <? y0 + bm_height src)
       then pixel src (x - x0) (y - y0)
       else pixel dst x y |}.

(** A packer that lays the rectangles in one row. *)
Fixpoint pack_row (rects : list (box Z)) (x0 gap : Z)
  : list (box Z) * Z :=
  match rects with
  | [] => ([], x0)
  | rc :: rest =>
      let '(out, x1) := pack_row rest (x0 + width rc + gap) gap in
      ({| x_ := x0; y_ := gap;
          width_ := width rc; height_ := height rc |} :: out, x1)
  end.

Definition toy_pack (rects : list (box Z)) (w h gap : Z)
  : bool * list (box Z) :=
  let '(out, x1) := pack_row rects gap gap in
  (forallb (fun rc => height rc + 2 * gap <=? h) rects && (x1 <=? w), out).

(** Field values of the toy renderers: 3/1024 in every channel but the
    blue one, which is saturated. *)
Definition toy_services (freetype : bool)
  (fonts : string -> option toy_font) : Services :=
  {| Shape := toy_shape;
     FontHandle := toy_font;
     FreetypeHandle := unit;
     loadGlyph := fun font i => font i;
     Shape_bounds := fun s extrema =>
       match s with Some e => e | None => extrema end;
     Shape_normalize := fun s => s;
     edgeColoringSimple := fun s _ => s;
     generateMSDF := fun bm _ _ _ _ =>
       {| bm_width := bm_width bm; bm_height := bm_height bm;
          pixel := fun _ _ =>
            {| r := 3 # 1024; g := 1 # 2; b := 1 |} |};
     generateSDF := fun bm _ _ _ _ =>
       {| bm_width := bm_width bm; bm_height := bm_height bm;
          pixel := fun _ _ => 3 # 1024 |};
     generatePseudoSDF := fun bm _ _ _ _ =>
       {| bm_width := bm_width bm; bm_height := bm_height bm;
          pixel := fun _ _ => 3 # 1024 |};
     place_msdf := toy_place;
     place_sdf := toy_place;
     bin_pack_max_rect := toy_pack;
     initializeFreetype := if freetype then Some tt else None;
     loadFont := fun _ name => fonts name |}.

(** A font with the glyphs A, B, C (65-67), a space without contour
    (32) and nothing else. *)
Definition abc : toy_font := fun i =>
  if i =? 65 then Some (Some (0, 0, 10, 14)%Q, 11%Q)
  else if i =? 66 then Some (Some (1, 0, 9, 14)%Q, 10%Q)
  else if i =? 67 then Some (Some (1, -1 # 2, 10, 29 # 2)%Q, 11%Q)
  else if i =? 32 then Some (None, 5%Q)
  else None.

Definition fonts (name : string) : option toy_font :=
  if String.eqb name "UbuntuMono-R.ttf" then Some abc else None.

Definition toy : Services := toy_services true fonts.

Definition range_ABC : codepoint_range :=
  {| range_begin := 65; range_end := 68 |}.

(** A probe that fits every height but 0, whatever the texture. *)
Definition fits_unless_zero (i : nat) (h : Z) : bool * list event :=
  (negb (h =? 0), []).

(** Three states of the search that [fits_unless_zero] cycles
    through. *)
Definition cycle1 : search_state :=
  {| range_first := 9223372036854775808; range_second := 0;
     highest := 0 |}.
Definition cycle2 : search_state :=
  {| range_first := 9223372036854775808;
     range_second := 13835058055282163712; highest := 0 |}.
Definition cycle3 : search_state :=
  {| range_first := 13835058055282163712;
     range_second := 9223372036854775808; highest := 0 |}.

End Samples.


(* ================================================================== *)
(** * Part II: properties *)
(* ================================================================== *)

(** ** Machine arithmetic *)

Lemma min_is_Zmin (a b : Z) : min a b = Z.min a b.
Proof.
  unfold min. destruct (Z.ltb_spec b a); lia.
Qed.

Lemma SizeT_wrap_small (z : Z) : SizeT.in_range z -> SizeT.wrap z = z.
Proof.
  unfold SizeT.in_range, SizeT.wrap. intros H. now apply Z.mod_small.
Qed.

Lemma SizeT_modulus_value : SizeT.modulus = 18446744073709551616.
Proof. reflexivity. Qed.

(** ** The search follows the step relation *)



Lemma auto_height_search_unfold fuel probe i s :
  auto_height_search fuel probe i s =
  if range_first s =? range_second s then Some (range_first s, [])
  else
    match fuel with
    | O => None
    | S fuel' =>
        let '(ok, ev) := probe i (range_second s) in
        match auto_height_search fuel' probe (S i) (search_step ok s) with
        | Some (h, evs) => Some (h, ev ++ evs)
        | None => None
        end
    end.
Proof. destruct fuel; reflexivity. Qed.



(** More fuel does not change the result. *)
Lemma search_fuel_mono probe : forall fuel fuel' i s r,
  (fuel <= fuel')%nat ->
  auto_height_search fuel probe i s = Some r ->
  auto_height_search fuel' probe i s = Some r.
Proof.
  induction fuel as [|fuel IH]; intros fuel' i s r Hle.
  - cbn. destruct (Z.eqb_spec (range_first s) (range_second s)) as [E|E];
      [|discriminate].
    intros <-. rewrite auto_height_search_unfold.
    now rewrite (proj2 (Z.eqb_eq _ _) E).
  - destruct fuel' as [|fuel']; [lia|]. cbn.
    destruct (range_first s =? range_second s); [trivial|].
    destruct (probe i (range_second s)) as [ok ev].
    destruct (auto_height_search fuel probe (S i) (search_step ok s))
      as [[h evs]|] eqn:Hrec; [|discriminate].
    intros <-. rewrite (IH fuel' _ _ _ ltac:(lia) Hrec). reflexivity.
Qed.

(** ** The search in its regime: invariant, variant, termination *)

Section Regime.
Variable probe : nat -> Z -> bool * list event.
Variable cfg : settings.
Hypothesis regime : search_regime probe cfg.

Lemma search_inv_init : search_inv probe cfg (search_init cfg).
Proof.
  destruct regime as (HM & HT & Hp).
  unfold search_inv, search_init, SizeT.in_range in *; cbn.
  assert (Hh : SizeT.add (tex_height (tex_dims cfg)) 1
               = tex_height (tex_dims cfg) + 1).
  { apply SizeT_wrap_small. unfold SizeT.in_range.
    rewrite SizeT_modulus_value. lia. }
  rewrite Hh. repeat split; try lia.
  destruct Hp as [Hp|Hp]; [left; lia|].
  destruct (Z_lt_le_dec (max_char_height cfg) (tex_height (tex_dims cfg) + 1));
    [left; lia | right; auto].
Qed.

(** In the regime no operation of a step wraps around. *)
Lemma search_step_exact (i : nat) (s : search_state) :
  search_inv probe cfg s ->
  range_first s <> range_second s ->
  search_step (fst (probe i (range_second s))) s =
  if fst (probe i (range_second s)) then
    {| range_first := range_second s;
       range_second := Z.min (2 * range_second s) (highest s - 1);
       highest := highest s |}
  else
    {| range_first := range_first s;
       range_second :=
         range_first s + (range_second s - range_first s) / 2;
       highest := Z.min (highest s) (range_second s) |}.
Proof.
  destruct regime as (HM & HT & Hp).
  intros (Hord & Hmax & Hlow & Hhi & Hdisj) Hne.
  unfold SizeT.in_range in HM. rewrite SizeT_modulus_value in HM.
  assert (Hsucc : fst (probe i (range_second s)) = true ->
                  range_second s < highest s).
  { intros Hok. destruct Hdisj as [H|(_ & Hh & Hno)]; [exact H|].
    destruct (Z_lt_le_dec (range_second s) (highest s)) as [H|H]; [exact H|].
    rewrite Hno in Hok by lia. discriminate. }
  unfold search_step.
  destruct (fst (probe i (range_second s))) eqn:Hok.
  - specialize (Hsucc eq_refl). f_equal.
    rewrite min_is_Zmin. unfold SizeT.mul, SizeT.sub.
    rewrite !SizeT_wrap_small
      by (unfold SizeT.in_range; rewrite SizeT_modulus_value; lia).
    f_equal. lia.
  - f_equal.
    + unfold SizeT.add, SizeT.sub, SizeT.div.
      assert (Hd : SizeT.wrap (range_second s - range_first s)
                   = range_second s - range_first s).
      { apply SizeT_wrap_small. unfold SizeT.in_range.
        rewrite SizeT_modulus_value. lia. }
      rewrite Hd. apply SizeT_wrap_small. unfold SizeT.in_range.
      rewrite SizeT_modulus_value.
      pose proof (Z.div_pos (range_second s - range_first s) 2).
      pose proof (Z.div_le_upper_bound
                    (range_second s - range_first s) 2
                    (range_second s - range_first s)).
      lia.
    + apply min_is_Zmin.
Qed.

Lemma search_inv_step (i : nat) (s : search_state) :
  search_inv probe cfg s ->
  range_first s <> range_second s ->
  let ok := fst (probe i (range_second s)) in
  let s' := search_step ok s in
  search_inv probe cfg s' /\
  0 <= search_measure cfg s' < search_measure cfg s /\
  (ok = true ->
   range_first s < range_first s' <= tex_height (tex_dims cfg) /\
   range_second s' <= highest s - 1 <= tex_height (tex_dims cfg)) /\
  (ok = false ->
   range_first s' = range_first s /\
   0 <= range_second s' - range_first s'
     < range_second s - range_first s).
Proof.
  intros Hinv Hne. cbv zeta.
  rewrite (search_step_exact i s Hinv Hne).
  destruct regime as (HM & HT & Hp).
  destruct Hinv as (Hord & Hmax & Hlow & Hhi & Hdisj).
  unfold SizeT.in_range in HM. rewrite SizeT_modulus_value in HM.
  assert (Hsucc : fst (probe i (range_second s)) = true ->
                  range_second s < highest s).
  { intros Hok. destruct Hdisj as [H|(_ & Hh & Hno)]; [exact H|].
    destruct (Z_lt_le_dec (range_second s) (highest s)) as [H|H]; [exact H|].
    rewrite Hno in Hok by lia. discriminate. }
  unfold search_inv, search_measure.
  destruct (fst (probe i (range_second s))) eqn:Hok;
    cbn [range_first range_second highest].
  - specialize (Hsucc eq_refl).
    repeat split; try lia; try discriminate; try nia.
  - assert (Hhalf : 0 <= (range_second s - range_first s) / 2
                    < range_second s - range_first s).
    { split; [apply Z.div_pos; lia | apply Z.div_lt_upper_bound; lia]. }
    repeat split; try lia; try discriminate; try nia.
    destruct Hdisj as [H|(H0 & Hh & Hno)].
    + left. lia.
    + destruct (Z_lt_le_dec (range_second s) (highest s)) as [H|H].
      * left. lia.
      * right. repeat split; try lia. exact Hno.
Qed.

Lemma reachable_inv (i : nat) (s : search_state) :
  reachable probe cfg i s -> search_inv probe cfg s.
Proof.
  induction 1 as [|i s _ IH Hne].
  - apply search_inv_init.
  - now apply search_inv_step.
Qed.

Lemma search_ends_from : forall (n : nat) (i : nat) (s : search_state),
  search_inv probe cfg s ->
  search_measure cfg s <= Z.of_nat n ->
  exists h evs, auto_height_search n probe i s = Some (h, evs).
Proof.
  induction n as [|n IH]; intros i s Hinv Hm;
    rewrite auto_height_search_unfold;
    destruct (Z.eqb_spec (range_first s) (range_second s)) as [E|E];
    eauto.
  - exfalso.
    destruct (search_inv_step i s Hinv E) as (_ & Hdec & _). lia.
  - destruct (search_inv_step i s Hinv E) as (Hinv' & Hdec & _).
    destruct (probe i (range_second s)) as [ok ev]; cbn in *.
    destruct (IH (S i) (search_step ok s) Hinv' ltac:(lia))
      as (h & evs & Hs).
    rewrite Hs. eauto.
Qed.

End Regime.

(** ** Claims about the search *)




(** The sample search: seven probes, and the committed height 24. *)
Example sample_search_commits_24 :
  let cfg := Samples.sample_settings [Samples.range_ABC] 64 10 true false sdf in
  option_map fst
    (auto_height_search 7 (fun _ => @probe Samples.toy Samples.abc cfg) 0
                        (search_init cfg))
  = Some 24.
Proof. vm_compute. reflexivity. Qed.

(** C6, as stated, fails: started at the requested char height 10 in a
    texture of 64 texels, the search of [run] probes the height 20 next. *)
Lemma probed_height_exceeds_request :
  let cfg := Samples.sample_settings [Samples.range_ABC] 64 10 true false sdf in
  exists s,
    reachable (fun _ => @probe Samples.toy Samples.abc cfg) cfg 1 s /\
    max_char_height cfg < range_second s.
Proof.
  intros cfg.
  exists (search_step
            (fst (@probe Samples.toy Samples.abc cfg
                         (range_second (search_init cfg))))
            (search_init cfg)).
  split.
  - apply (reachable_step (fun _ => @probe Samples.toy Samples.abc cfg)
                          cfg 0 (search_init cfg)).
    + apply reachable_init.
    + cbn. discriminate.
  - vm_compute. reflexivity.
Qed.

(** C6, amended.  In the regime of the search (texture height below
    2^63, and a start at or below the texture height or no success above
    it) the probed height [range.second] never exceeds the larger of the
    requested char height and the texture height; the doubling step is
    bounded by [highest - 1], hence by the texture height, and not by the
    requested char height. *)
Theorem probed_height_bounded (probe : nat -> Z -> bool * list event)
  (cfg : settings) (i : nat) (s : search_state) :
  search_regime probe cfg ->
  reachable probe cfg i s ->
  range_second s
  <= Z.max (max_char_height cfg) (tex_height (tex_dims cfg)) /\
  (range_first s <> range_second s ->
   fst (probe i (range_second s)) = true ->
   range_second (search_step true s)
   = Z.min (2 * range_second s) (highest s - 1) /\
   range_second (search_step true s) <= highest s - 1 /\
   highest s - 1 <= tex_height (tex_dims cfg)).
Proof.
  intros Hreg Hreach.
  pose proof (reachable_inv probe cfg Hreg i s Hreach) as Hinv.
  split.
  - apply Hinv.
  - intros Hne Hok.
    pose proof (search_step_exact probe cfg Hreg i s Hinv Hne) as Hex.
    destruct (search_inv_step probe cfg Hreg i s Hinv Hne)
      as (_ & _ & Hs & _).
    rewrite Hok in Hex, Hs. rewrite Hex. cbn [range_second].
    specialize (Hs eq_refl). rewrite Hex in Hs. cbn [range_second] in Hs.
    repeat split; lia.
Qed.

Lemma probed_height_bounded_witness :
  let cfg := Samples.sample_settings [Samples.range_ABC] 64 10 true false sdf in
  let p := fun _ : nat => @probe Samples.toy Samples.abc cfg in
  let s := search_step true (search_init cfg) in
  search_regime p cfg /\
  reachable p cfg 1 s /\
  range_second s
  <= Z.max (max_char_height cfg) (tex_height (tex_dims cfg)) /\
  (range_first s <> range_second s ->
   fst (p 1%nat (range_second s)) = true ->
   range_second (search_step true s)
   = Z.min (2 * range_second s) (highest s - 1) /\
   range_second (search_step true s) <= highest s - 1 /\
   highest s - 1 <= tex_height (tex_dims cfg)).
Proof.
  intros cfg p s.
  assert (Hreg : search_regime p cfg).
  { unfold search_regime, SizeT.in_range. cbn.
    split; [lia | split; [lia | left; lia]]. }
  assert (Hreach : reachable p cfg 1 s).
  { apply (reachable_step p cfg 0 (search_init cfg)).
    - apply reachable_init.
    - cbn. discriminate. }
  split; [exact Hreg|]. split; [exact Hreach|].
  exact (probed_height_bounded p cfg 1 s Hreg Hreach).
Defined.

(** One more iteration of a loop that does not end. *)
Lemma search_stuck_step probe fuel i s ok ev :
  range_first s <> range_second s ->
  probe i (range_second s) = (ok, ev) ->
  auto_height_search fuel probe (S i) (search_step ok s) = None ->
  auto_height_search (S fuel) probe i s = None.
Proof.
  intros Hne Hp Hrec. cbn.
  rewrite (proj2 (Z.eqb_neq _ _) Hne), Hp, Hrec. reflexivity.
Qed.

Lemma search_stuck_zero probe i s :
  range_first s <> range_second s ->
  auto_height_search O probe i s = None.
Proof.
  intros Hne. cbn. now rewrite (proj2 (Z.eqb_neq _ _) Hne).
Qed.

Lemma search_cycles : forall fuel i,
  auto_height_search fuel Samples.fits_unless_zero i Samples.cycle1 = None /\
  auto_height_search fuel Samples.fits_unless_zero i Samples.cycle2 = None /\
  auto_height_search fuel Samples.fits_unless_zero i Samples.cycle3 = None.
Proof.
  induction fuel as [|fuel IH]; intros i.
  - repeat split; apply search_stuck_zero; discriminate.
  - destruct (IH (S i)) as (H1 & H2 & H3).
    repeat split.
    + apply search_stuck_step with (ok := false) (ev := []);
        [discriminate | reflexivity | exact H2].
    + apply search_stuck_step with (ok := true) (ev := []);
        [discriminate | reflexivity | exact H3].
    + apply search_stuck_step with (ok := true) (ev := []);
        [discriminate | reflexivity | exact H1].
Qed.

(** C7, as stated, fails: for the requested char height 1 in a texture of
    height 0 and a probe that succeeds at every height but 0, the loop
    never ends.  After three probes it is in a state whose
    [range.first] is 2^63, and from there it cycles. *)
Lemma search_does_not_end :
  let cfg := Samples.sample_settings [] 0 1 true false msdf in
  ~ exists fuel r,
      auto_height_search fuel Samples.fits_unless_zero 0 (search_init cfg)
      = Some r.
Proof.
  intros cfg (fuel & r & H).
  assert (Hnone : auto_height_search fuel Samples.fits_unless_zero 0
                                     (search_init cfg) = None).
  { destruct fuel as [|fuel]; [apply search_stuck_zero; discriminate|].
    apply search_stuck_step with (ok := true) (ev := []);
      [discriminate | reflexivity |].
    destruct fuel as [|fuel]; [apply search_stuck_zero; discriminate|].
    apply search_stuck_step with (ok := false) (ev := []);
      [discriminate | reflexivity |].
    destruct fuel as [|fuel]; [apply search_stuck_zero; discriminate|].
    apply search_stuck_step with (ok := true) (ev := []);
      [discriminate | reflexivity |].
    apply (search_cycles fuel 3). }
  rewrite Hnone in H. discriminate.
Qed.

(** C7, amended.  In the regime of the search (texture height below
    2^63, and a start at or below the texture height or no success above
    it) the loop ends, whatever the verdicts of the probes: a failed probe
    leaves [range.first] and strictly shrinks
    [range.second - range.first], a successful probe strictly raises
    [range.first], which the texture height bounds. *)
Theorem search_terminates (probe : nat -> Z -> bool * list event)
  (cfg : settings) :
  search_regime probe cfg ->
  (exists fuel h evs,
     auto_height_search fuel probe 0 (search_init cfg) = Some (h, evs)) /\
  (forall i s,
     reachable probe cfg i s ->
     range_first s <> range_second s ->
     let ok := fst (probe i (range_second s)) in
     let s' := search_step ok s in
     (ok = false ->
      range_first s' = range_first s /\
      0 <= range_second s' - range_first s'
        < range_second s - range_first s) /\
     (ok = true ->
      range_first s < range_first s' <= tex_height (tex_dims cfg))).
Proof.
  intros Hreg. split.
  - exists (Z.to_nat (search_measure cfg (search_init cfg))).
    apply (search_ends_from probe cfg Hreg).
    + apply (search_inv_init probe cfg Hreg).
    + lia.
  - intros i s Hreach Hne.
    pose proof (reachable_inv probe cfg Hreg i s Hreach) as Hinv.
    destruct (search_inv_step probe cfg Hreg i s Hinv Hne)
      as (_ & _ & Hs & Hf).
    cbv zeta. split.
    + exact Hf.
    + intros Hok. apply (Hs Hok).
Qed.

Lemma search_terminates_witness :
  let cfg := Samples.sample_settings [Samples.range_ABC] 64 10 true false sdf in
  let p := fun _ : nat => @probe Samples.toy Samples.abc cfg in
  search_regime p cfg /\
  (exists fuel h evs,
     auto_height_search fuel p 0 (search_init cfg) = Some (h, evs)) /\
  (forall i s,
     reachable p cfg i s ->
     range_first s <> range_second s ->
     let ok := fst (p i (range_second s)) in
     let s' := search_step ok s in
     (ok = false ->
      range_first s' = range_first s /\
      0 <= range_second s' - range_first s'
        < range_second s - range_first s) /\
     (ok = true ->
      range_first s < range_first s' <= tex_height (tex_dims cfg))).
Proof.
  intros cfg p.
  assert (Hreg : search_regime p cfg).
  { unfold search_regime, SizeT.in_range. cbn.
    split; [lia | split; [lia | left; lia]]. }
  split; [exact Hreg|].
  exact (search_terminates p cfg Hreg).
Defined.

(** ** The bytes of the image *)

Lemma of_float_nonneg_floor (q : Q) :
  (0 <= q)%Q -> Int.of_float q = Qfloor q.
Proof.
  destruct q as [n d]. unfold Qle, Int.of_float, Qfloor. cbn.
  intros H. apply Z.quot_div_nonneg; lia.
Qed.

Lemma channel_byte_floor (v : Q) :
  unit_interval v ->
  channel_byte v = floor_byte v /\ 0 <= channel_byte v <= 255.
Proof.
  intros [H0 H1]. unfold channel_byte, floor_byte.
  assert (Hnn : (0 <= v * inject_Z 256)%Q).
  { apply Qmult_le_0_compat; [exact H0 | discriminate]. }
  rewrite (of_float_nonneg_floor _ Hnn).
  assert (Hlo : 0 <= Qfloor (v * inject_Z 256)).
  { change 0 with (Qfloor 0). now apply Qfloor_resp_le. }
  assert (Hhi : Qfloor (v * inject_Z 256) <= 256).
  { change 256 with (Qfloor (inject_Z 256)).
    apply Qfloor_resp_le.
    rewrite <- (Qmult_1_l (inject_Z 256)) at 2.
    apply Qmult_le_compat_r; [exact H1 | discriminate]. }
  unfold clamp.
  destruct (Z.leb_spec 0 (Qfloor (v * inject_Z 256))); [|lia].
  destruct (Z.leb_spec (Qfloor (v * inject_Z 256)) 255); cbn [andb].
  - lia.
  - destruct (Z.ltb_spec 0 (Qfloor (v * inject_Z 256))); lia.
Qed.

Lemma nth_error_upto (n k : Z) :
  0 <= k < n -> nth_error (upto n) (Z.to_nat k) = Some k.
Proof.
  intros H. unfold upto. rewrite nth_error_map.
  rewrite nth_error_seq.
  destruct (Nat.ltb_spec (Z.to_nat k) (Z.to_nat n)) as [L|L]; [|lia].
  cbn. f_equal. lia.
Qed.

Lemma nth_error_triples {A B : Type} (f1 f2 f3 : A -> B) :
  forall (l : list A) (i : nat) (a : A) (c : nat),
  nth_error l i = Some a ->
  (c < 3)%nat ->
  nth_error (flat_map (fun x => [f1 x; f2 x; f3 x]) l) (3 * i + c)
  = nth_error [f1 a; f2 a; f3 a] c.
Proof.
  induction l as [|x l IH]; intros i a c Hi Hc.
  - destruct i; discriminate.
  - destruct i as [|i].
    + cbn in Hi. injection Hi as ->.
      destruct c as [|[|[|c]]]; try reflexivity; lia.
    + cbn in Hi. replace (3 * S i + c)%nat with (S (S (S (3 * i + c)))) by lia.
      cbn [flat_map app nth_error]. now apply IH.
Qed.

(** C5, as stated, fails: the field value 3/1024 lies in [0,1] and
    3/1024 * 256 = 0.75 rounds to 1, but the byte written is 0. *)
Lemma channel_byte_is_not_rounded :
  unit_interval (3 # 1024) /\
  channel_byte (3 # 1024) = 0 /\
  Spec.channel_byte (3 # 1024) = 1.
Proof.
  split; [|split]; [|reflexivity|reflexivity].
  split; discriminate.
Qed.

(** C5, amended.  For every pixel of the image that [write_image] writes,
    the byte of a channel whose field value [v] lies in [0,1] is
    floor(v*256) (the conversion to [int] truncates) clamped to [0,255],
    in the three-channel mode and in the single-channel modes alike. *)
Theorem image_bytes_truncate {services : Services}
  (charinfos : list char_info) (cfg : settings) (file : string)
  (img : font_image) (x y : Z) :
  In (WriteImage file img) (write_image charinfos cfg) ->
  0 <= x < tex_width (tex_dims cfg) ->
  0 <= y < tex_height (tex_dims cfg) ->
  exists row,
    nth_error (pixels img) (Z.to_nat y) = Some row /\
    match mode cfg with
    | msdf =>
        let px := pixel (get_msdf (compose charinfos cfg)) x y in
        unit_interval (r px) -> unit_interval (g px) ->
        unit_interval (b px) ->
        nth_error row (3 * Z.to_nat x) = Some (floor_byte (r px)) /\
        nth_error row (3 * Z.to_nat x + 1) = Some (floor_byte (g px)) /\
        nth_error row (3 * Z.to_nat x + 2) = Some (floor_byte (b px)) /\
        0 <= floor_byte (r px) <= 255 /\
        0 <= floor_byte (g px) <= 255 /\
        0 <= floor_byte (b px) <= 255
    | sdf | pseudo_sdf =>
        let v := pixel (get_sdf (compose charinfos cfg)) x y in
        unit_interval v ->
        nth_error row (Z.to_nat x) = Some (floor_byte v) /\
        0 <= floor_byte v <= 255
    end.
Proof.
  intros Hin Hx Hy.
  unfold write_image in Hin.
  destruct Hin as [Hin|[Hin|[]]]; [discriminate|].
  injection Hin as _ <-. cbn [pixels].
  pose proof (nth_error_upto _ _ Hx) as Hnx.
  pose proof (nth_error_upto _ _ Hy) as Hny.
  assert (Hsdf : forall bm : sdf_bitmap,
             let row := map (fun x => channel_byte (pixel bm x y))
                            (upto (tex_width (tex_dims cfg))) in
             unit_interval (pixel bm x y) ->
             nth_error row (Z.to_nat x) = Some (floor_byte (pixel bm x y)) /\
             0 <= floor_byte (pixel bm x y) <= 255).
  { intros bm row Hv. subst row.
    rewrite nth_error_map, Hnx. cbn.
    destruct (channel_byte_floor _ Hv) as [-> Hr]. now split. }
  unfold pixel_rows.
  destruct (mode cfg); rewrite nth_error_map, Hny; cbn [option_map];
    eexists; (split; [reflexivity|]); cbv zeta.
  - intros Hr Hg Hb.
    destruct (channel_byte_floor _ Hr) as [Er Br].
    destruct (channel_byte_floor _ Hg) as [Eg Bg].
    destruct (channel_byte_floor _ Hb) as [Eb Bb].
    rewrite <- Er, <- Eg, <- Eb.
    replace (3 * Z.to_nat x)%nat with (3 * Z.to_nat x + 0)%nat at 1 by lia.
    rewrite !(nth_error_triples _ _ _ _ _ _ _ Hnx) by lia.
    cbn [nth_error]. repeat split; lia.
  - apply Hsdf.
  - apply Hsdf.
Qed.

Lemma image_bytes_truncate_witness :
  let cfg := Samples.sample_settings [Samples.range_ABC] 64 10 false false sdf in
  let charinfos :=
    snd (@build_atlas Samples.toy
           (fst (fst (@build_charset Samples.toy Samples.abc cfg true))) cfg) in
  let img :=
    {| image_width := 64; image_height := 64; char_border := 2;
       image_spacing := 2; channels := 1;
       pixels := pixel_rows sdf (@compose Samples.toy charinfos cfg) 64 64 |} in
  In (WriteImage "bitmap_font_img.c" img)
     (@write_image Samples.toy charinfos cfg) /\
  0 <= 3 < tex_width (tex_dims cfg) /\
  0 <= 3 < tex_height (tex_dims cfg) /\
  exists row,
    nth_error (pixels img) (Z.to_nat 3) = Some row /\
    let v := pixel (get_sdf (@compose Samples.toy charinfos cfg)) 3 3 in
    (unit_interval v ->
     nth_error row (Z.to_nat 3) = Some (floor_byte v) /\
     0 <= floor_byte v <= 255).
Proof.
  intros cfg charinfos img.
  assert (Hin : In (WriteImage "bitmap_font_img.c" img)
                   (@write_image Samples.toy charinfos cfg)).
  { right. left. reflexivity. }
  assert (Hx : 0 <= 3 < tex_width (tex_dims cfg)) by (cbn; lia).
  assert (Hy : 0 <= 3 < tex_height (tex_dims cfg)) by (cbn; lia).
  split; [exact Hin|]. split; [exact Hx|]. split; [exact Hy|].
  exact (@image_bytes_truncate Samples.toy charinfos cfg
           "bitmap_font_img.c" img 3 3 Hin Hx Hy).
Defined.

(** ** The scaling step *)

Section Scaling.
Context {services : Services}.













End Scaling.


(** ** The traces of [run] *)

Section Traces.
Context {services : Services}.

Lemma read_shapes_ignores_height font cfg h :
  read_shapes font (set_max_char_height cfg h) = read_shapes font cfg.
Proof. reflexivity. Qed.

Lemma probe_trace font cfg h :
  snd (probe font cfg h)
  = [Trying h; Divide h (max_bbox_height (read_shapes font cfg));
     PackingAtlas].
Proof.
  unfold probe, build_charset.
  destruct (build_atlas _ _). reflexivity.
Qed.

(** Every event of the loop is an event of one of its probes. *)
Lemma search_trace probe : forall fuel i s h evs e,
  auto_height_search fuel probe i s = Some (h, evs) ->
  In e evs ->
  exists j c, In e (snd (probe j c)).
Proof.
  induction fuel as [|fuel IH]; intros i s h evs e; cbn;
    destruct (range_first s =? range_second s).
  - intros [= <- <-] [].
  - discriminate.
  - intros [= <- <-] [].
  - destruct (probe i (range_second s)) as [ok ev] eqn:Hp.
    destruct (auto_height_search fuel probe (S i) (search_step ok s))
      as [[h' evs']|] eqn:Hrec; [|discriminate].
    intros [= <- <-] Hin. apply in_app_or in Hin as [Hin|Hin].
    + exists i, (range_second s). now rewrite Hp.
    + eapply IH; eassumption.
Qed.

Lemma write_description_trace charinfos cfg scaling :
  exists d,
    snd (write_description charinfos cfg scaling)
    = [WriteDescription (output_file_name cfg ++ "_desc.c") d].
Proof.
  unfold write_description.
  destruct (write_glyphs _ _ _). cbn. eauto.
Qed.

(** The committed run: its trace up to the verdict of the packer, and
    what follows the verdict. *)
Lemma run_committed_trace font cfg :
  let ok := fst (build_atlas (fst (fst (build_charset font cfg true))) cfg) in
  run_committed font cfg
  = [UsingCharHeight (max_char_height cfg); BuildingChars;
     Divide (max_char_height cfg) (max_bbox_height (read_shapes font cfg));
     PackingAtlas]
    ++ (if ok then
          let packed :=
            snd (build_atlas (fst (fst (build_charset font cfg true))) cfg) in
          let scaling := snd (fst (build_charset font cfg true)) in
          snd (write_description packed cfg scaling)
          ++ write_image (fst (write_description packed cfg scaling)) cfg
        else [PackingFailed]).
Proof.
  unfold run_committed, build_charset. cbn [fst snd].
  destruct (build_atlas _ cfg) as [ok packed]. cbn [fst snd app].
  destruct ok; cbn [negb]; [|reflexivity].
  destruct (write_description packed cfg _). reflexivity.
Qed.

Lemma run_committed_files font cfg :
  let ok := fst (build_atlas (fst (fst (build_charset font cfg true))) cfg) in
  (ok = false ->
   In PackingFailed (run_committed font cfg) /\
   files_written (run_committed font cfg) = []) /\
  (ok = true ->
   ~ In PackingFailed (run_committed font cfg) /\
   files_written (run_committed font cfg)
   = [(output_file_name cfg ++ "_desc.c")%string;
      (output_file_name cfg ++ "_img.png")%string;
      (output_file_name cfg ++ "_img.c")%string]).
Proof.
  cbv zeta. rewrite run_committed_trace. cbv zeta.
  destruct (fst (build_atlas _ cfg)); split; try discriminate; intros _.
  - destruct (write_description_trace
                (snd (build_atlas (fst (fst (build_charset font cfg true)))
                                  cfg))
                cfg (snd (fst (build_charset font cfg true)))) as (d & ->).
    split; [|reflexivity].
    cbn. intros [H|[H|[H|[H|[H|[H|[H|[]]]]]]]]; discriminate.
  - split; [|reflexivity]. cbn. tauto.
Qed.

Lemma files_written_app tr1 tr2 :
  files_written (tr1 ++ tr2) = files_written tr1 ++ files_written tr2.
Proof. unfold files_written. apply flat_map_app. Qed.

(** The search writes no file and does not report a packing failure. *)
Lemma search_writes_nothing font cfg fuel i s h evs :
  auto_height_search fuel (fun _ => probe font cfg) i s = Some (h, evs) ->
  files_written evs = [] /\ ~ In PackingFailed evs.
Proof.
  intros Hs.
  assert (Hev : forall e, In e evs -> file_of e = None /\ e <> PackingFailed).
  { intros e Hin.
    destruct (search_trace _ _ _ _ _ _ e Hs Hin) as (j & c & Hp).
    rewrite probe_trace in Hp.
    destruct Hp as [<-|[<-|[<-|[]]]]; split; (reflexivity || discriminate). }
  split.
  - unfold files_written. clear Hs.
    induction evs as [|e evs IH]; [reflexivity|]. cbn.
    destruct (Hev e (or_introl eq_refl)) as [-> _]. cbn.
    apply IH. intros e' He'. apply Hev. now right.
  - intros Hin. now destruct (Hev _ Hin) as [_ Hne].
Qed.

(** The trace of [run]: the trace of the search, if any, then the
    committed run at the height [h]. *)
Lemma run_trace fuel font cfg tr :
  run fuel font cfg = Some tr ->
  exists h evs,
    tr = evs ++ run_committed font (set_max_char_height cfg h) /\
    files_written evs = [] /\ ~ In PackingFailed evs /\
    (forall e, In e evs -> exists c, In e (snd (probe font cfg c))) /\
    (auto_height cfg = false -> h = max_char_height cfg /\ evs = []).
Proof.
  unfold run. destruct (auto_height cfg) eqn:Hauto.
  - destruct (auto_height_search fuel (fun _ => probe font cfg) 0
                                 (search_init cfg))
      as [[h evs]|] eqn:Hs; [|discriminate].
    intros [= <-]. exists h, evs.
    destruct (search_writes_nothing _ _ _ _ _ _ _ Hs) as [Hf Hp].
    repeat split; try assumption; try discriminate.
    intros e Hin.
    destruct (search_trace _ _ _ _ _ _ e Hs Hin) as (_ & c & Hc).
    now exists c.
  - intros [= <-]. exists (max_char_height cfg), [].
    split; [destruct cfg; reflexivity|].
    split; [reflexivity|]. split; [intros []|].
    split; [intros e []|]. intros _. split; reflexivity.
Qed.

End Traces.

(** ** Claims about the divisor, the artifacts and the exit status *)




(** A run without the search always ends. *)
Lemma run_without_search {services : Services} fuel font cfg :
  auto_height cfg = false ->
  run fuel font cfg = Some (run_committed font cfg).
Proof. intros H. unfold run. now rewrite H. Qed.



(** The sample run in the texture of 4 x 4 texels does fail to pack. *)
Example packing_fails_in_tiny_texture :
  let cfg := Samples.sample_settings [Samples.range_ABC] 4 32 false false sdf in
  @run Samples.toy 0 Samples.abc cfg
  = Some [UsingCharHeight 32; BuildingChars; Divide 32 (60 # 4);
          PackingAtlas; PackingFailed].
Proof. vm_compute. reflexivity. Qed.




(** ** The serializer: sorting *)

Section Sorting.
Context {services : Services}.

Lemma insert_by_codepoint_perm ch : forall l,
  Permutation (insert_by_codepoint ch l) (ch :: l).
Proof.
  induction l as [|c l IH]; cbn; [reflexivity|].
  destruct (codepoint c <=? codepoint ch); [|reflexivity].
  rewrite IH. apply perm_swap.
Qed.

Lemma insert_by_codepoint_sorted ch : forall l,
  StronglySorted codepoint_le l ->
  StronglySorted codepoint_le (insert_by_codepoint ch l).
Proof.
  induction l as [|c l IH]; intros Hs; cbn.
  - constructor; constructor.
  - apply StronglySorted_inv in Hs as [Hs Hc].
    destruct (Z.leb_spec (codepoint c) (codepoint ch)) as [Hle|Hlt].
    + constructor; [now apply IH|].
      apply Forall_forall. intros b Hb.
      apply (Permutation_in _ (insert_by_codepoint_perm ch l)) in Hb.
      destruct Hb as [<-|Hb]; [exact Hle|].
      now apply (proj1 (Forall_forall _ _) Hc).
    + constructor; [now constructor|].
      constructor; [unfold codepoint_le; lia|].
      apply Forall_forall. intros b Hb.
      pose proof (proj1 (Forall_forall _ _) Hc b Hb) as Hcb.
      unfold codepoint_le in *. lia.
Qed.

Lemma sort_fold_perm : forall l acc,
  Permutation (fold_left (fun sorted ch => insert_by_codepoint ch sorted) l acc)
              (l ++ acc).
Proof.
  induction l as [|c l IH]; intros acc; cbn; [reflexivity|].
  rewrite IH, insert_by_codepoint_perm. symmetry. apply Permutation_middle.
Qed.

Lemma sort_fold_sorted : forall l acc,
  StronglySorted codepoint_le acc ->
  StronglySorted codepoint_le
    (fold_left (fun sorted ch => insert_by_codepoint ch sorted) l acc).
Proof.
  induction l as [|c l IH]; intros acc Hs; cbn; [exact Hs|].
  apply IH. now apply insert_by_codepoint_sorted.
Qed.

Lemma sort_by_codepoint_perm l : Permutation (sort_by_codepoint l) l.
Proof.
  unfold sort_by_codepoint. rewrite sort_fold_perm. now rewrite app_nil_r.
Qed.

Lemma sort_by_codepoint_sorted l :
  StronglySorted codepoint_le (sort_by_codepoint l).
Proof. apply sort_fold_sorted. constructor. Qed.

Lemma distinct_codepoints_perm l l' :
  Permutation l l' -> distinct_codepoints l -> distinct_codepoints l'.
Proof.
  intros Hp [Hnd Hv]. split.
  - eapply Permutation_NoDup; [|exact Hnd]. now apply Permutation_map.
  - eapply Permutation_Forall; eassumption.
Qed.

Lemma distinct_sorted_increasing : forall l,
  StronglySorted codepoint_le l ->
  NoDup (map codepoint l) ->
  StronglySorted codepoint_lt l.
Proof.
  induction l as [|c l IH]; intros Hs Hnd; [constructor|].
  apply StronglySorted_inv in Hs as [Hs Hc].
  cbn in Hnd. apply NoDup_cons_iff in Hnd as [Hnin Hnd].
  constructor; [now apply IH|].
  apply Forall_forall. intros b Hb.
  pose proof (proj1 (Forall_forall _ _) Hc b Hb) as Hle.
  assert (codepoint c <> codepoint b).
  { intros E. apply Hnin. rewrite E. now apply in_map. }
  unfold codepoint_le, codepoint_lt in *. lia.
Qed.

Lemma sort_by_codepoint_increasing l :
  distinct_codepoints l ->
  StronglySorted codepoint_lt (sort_by_codepoint l) /\
  distinct_codepoints (sort_by_codepoint l).
Proof.
  intros Hd.
  assert (Hd' : distinct_codepoints (sort_by_codepoint l)).
  { eapply distinct_codepoints_perm; [|exact Hd].
    symmetry. apply sort_by_codepoint_perm. }
  split; [|exact Hd'].
  apply distinct_sorted_increasing; [apply sort_by_codepoint_sorted|].
  apply Hd'.
Qed.

Lemma max_codepoint_ge l ch : In ch l -> codepoint ch <= max_codepoint l.
Proof.
  induction l as [|c l IH]; intros Hin; [destruct Hin|].
  change (max_codepoint (c :: l))
    with (Z.max (codepoint c) (max_codepoint l)).
  destruct Hin as [->|Hin]; [lia|]. specialize (IH Hin). lia.
Qed.

Lemma max_codepoint_perm l l' :
  Permutation l l' -> max_codepoint l = max_codepoint l'.
Proof.
  induction 1 as [|c l l' _ IH|a c l|l l' l'' _ IH1 _ IH2].
  - reflexivity.
  - change (Z.max (codepoint c) (max_codepoint l)
            = Z.max (codepoint c) (max_codepoint l')).
    now rewrite IH.
  - change (Z.max (codepoint c) (Z.max (codepoint a) (max_codepoint l))
            = Z.max (codepoint a) (Z.max (codepoint c) (max_codepoint l))).
    lia.
  - congruence.
Qed.

End Sorting.

(** ** The serializer: the dense table *)

Section Dense.
Context {services : Services}.

Lemma Int_max_int_value : Int.max_int = 2147483647.
Proof. reflexivity. Qed.

Lemma SizeT_wrap_codepoint (z : Z) :
  0 <= z <= Int.max_int -> SizeT.wrap z = z.
Proof.
  intros H. apply SizeT_wrap_small. unfold SizeT.in_range.
  rewrite SizeT_modulus_value. rewrite Int_max_int_value in H. lia.
Qed.

Lemma write_glyphs_cons spans lw info rest :
  write_glyphs spans lw (info :: rest)
  = ((if spans then []
      else repeat zero_glyph
             (Z.to_nat (SizeT.wrap (codepoint info) - lw)))
     ++ glyph_of info
     :: fst (write_glyphs spans (SizeT.wrap (codepoint info + 1)) rest),
     snd (write_glyphs spans (SizeT.wrap (codepoint info + 1)) rest)).
Proof.
  cbn. destruct (write_glyphs spans _ rest). reflexivity.
Qed.

Lemma write_glyphs_dense : forall (l : list char_info) (lw : Z),
  StronglySorted codepoint_lt l ->
  Forall (fun ch => lw <= codepoint ch < Int.max_int) l ->
  0 <= lw ->
  let out := fst (write_glyphs false lw l) in
  let last := snd (write_glyphs false lw l) in
  last = Z.max lw (max_codepoint l + 1) /\
  Z.of_nat (List.length out) = last - lw /\
  (forall ch, In ch l ->
     nth_error out (Z.to_nat (codepoint ch - lw)) = Some (glyph_of ch)) /\
  (forall k, lw <= k < last ->
     (forall ch, In ch l -> codepoint ch <> k) ->
     nth_error out (Z.to_nat (k - lw)) = Some zero_glyph).
Proof.
  induction l as [|info rest IH]; intros lw Hs Hv Hlw; cbv zeta.
  - cbn [write_glyphs fst snd List.length nth_error].
    change (max_codepoint []) with (-1).
    split; [lia|]. split; [lia|].
    split; [intros ch [] | intros k Hk; lia].
  - apply StronglySorted_inv in Hs as [Hs Hlt].
    apply Forall_cons_iff in Hv as [Hinfo Hv].
    rewrite write_glyphs_cons.
    rewrite !SizeT_wrap_codepoint by lia.
    cbn [fst snd].
    assert (Hv' : Forall (fun ch => codepoint info + 1 <= codepoint ch
                                    < Int.max_int) rest).
    { apply Forall_forall. intros ch Hch.
      pose proof (proj1 (Forall_forall _ _) Hlt ch Hch) as H1.
      pose proof (proj1 (Forall_forall _ _) Hv ch Hch) as H2.
      unfold codepoint_lt in H1. cbv beta in H1, H2. lia. }
    destruct (IH (codepoint info + 1) Hs Hv' ltac:(lia))
      as (Hlast & Hlen & Hreal & Hzero).
    set (written := fst (write_glyphs false (codepoint info + 1) rest)) in *.
    set (last := snd (write_glyphs false (codepoint info + 1) rest)) in *.
    set (gap := Z.to_nat (codepoint info - lw)).
    assert (Hgap : List.length (repeat zero_glyph gap) = gap)
      by apply repeat_length.
    assert (Hgapv : gap = Z.to_nat (codepoint info - lw)) by reflexivity.
    clearbody gap.
    change (max_codepoint (info :: rest))
      with (Z.max (codepoint info) (max_codepoint rest)).
    split; [lia|]. split; [|split].
    + rewrite length_app, Hgap. cbn [List.length]. lia.
    + intros ch [<-|Hch].
      * rewrite nth_error_app2 by (rewrite Hgap; lia).
        rewrite Hgap. replace (Z.to_nat (codepoint info - lw) - gap)%nat
          with O by lia. reflexivity.
      * pose proof (proj1 (Forall_forall _ _) Hv' ch Hch) as Hc.
        cbv beta in Hc.
        rewrite nth_error_app2 by (rewrite Hgap; lia).
        rewrite Hgap.
        replace (Z.to_nat (codepoint ch - lw) - gap)%nat
          with (S (Z.to_nat (codepoint ch - (codepoint info + 1)))) by lia.
        cbn [nth_error]. now apply Hreal.
    + intros k Hk Hnone.
      assert (Hki : k <> codepoint info).
      { intros ->. apply (Hnone info); [now left | reflexivity]. }
      destruct (Z_lt_le_dec k (codepoint info)) as [Hbelow|Habove].
      * rewrite nth_error_app1 by (rewrite Hgap; lia).
        apply nth_error_repeat. lia.
      * rewrite nth_error_app2 by (rewrite Hgap; lia).
        rewrite Hgap.
        replace (Z.to_nat (k - lw) - gap)%nat
          with (S (Z.to_nat (k - (codepoint info + 1)))) by lia.
        cbn [nth_error]. apply Hzero; [lia|].
        intros ch Hch. apply Hnone. now right.
Qed.

(** With spans, the table holds the entries of the records and nothing
    else. *)
Lemma write_glyphs_spans : forall (l : list char_info) (lw : Z),
  fst (write_glyphs true lw l) = map glyph_of l.
Proof.
  induction l as [|info rest IH]; intros lw; [reflexivity|].
  rewrite write_glyphs_cons. cbn [fst app map]. now rewrite IH.
Qed.

(** The final [last_written] is one past the last record's codepoint,
    in both modes. *)
Lemma write_glyphs_last spans : forall (l : list char_info) (lw : Z),
  StronglySorted codepoint_lt l ->
  Forall (fun ch => lw <= codepoint ch < Int.max_int) l ->
  0 <= lw ->
  snd (write_glyphs spans lw l) = Z.max lw (max_codepoint l + 1).
Proof.
  induction l as [|info rest IH]; intros lw Hs Hv Hlw.
  - cbn. lia.
  - apply StronglySorted_inv in Hs as [Hs Hlt].
    apply Forall_cons_iff in Hv as [Hinfo Hv].
    rewrite write_glyphs_cons. cbn [snd].
    rewrite SizeT_wrap_codepoint by lia.
    rewrite IH; try lia; try assumption.
    + change (max_codepoint (info :: rest))
        with (Z.max (codepoint info) (max_codepoint rest)). lia.
    + apply Forall_forall. intros ch Hch.
      pose proof (proj1 (Forall_forall _ _) Hlt ch Hch) as H1.
      pose proof (proj1 (Forall_forall _ _) Hv ch Hch) as H2.
      unfold codepoint_lt in H1. cbv beta in H1, H2. lia.
Qed.

(** An increasing run of codepoints from [lo] on is no longer than the
    codepoints it spans. *)
Lemma increasing_length : forall (l : list char_info) (lo : Z),
  StronglySorted codepoint_lt l ->
  Forall (fun ch => lo <= codepoint ch) l ->
  l <> [] ->
  lo + Z.of_nat (List.length l) <= max_codepoint l + 1.
Proof.
  induction l as [|c l IH]; intros lo Hs Hv Hne; [congruence|].
  apply StronglySorted_inv in Hs as [Hs Hlt].
  apply Forall_cons_iff in Hv as [Hc Hv].
  change (max_codepoint (c :: l))
    with (Z.max (codepoint c) (max_codepoint l)).
  destruct l as [|c' l'].
  - cbn. lia.
  - assert (Hv' : Forall (fun ch => codepoint c + 1 <= codepoint ch)
                         (c' :: l')).
    { apply Forall_forall. intros ch Hch.
      pose proof (proj1 (Forall_forall _ _) Hlt ch Hch) as H1.
      unfold codepoint_lt in H1. cbv beta in H1. lia. }
    specialize (IH (codepoint c + 1) Hs Hv' ltac:(discriminate)).
    cbn [List.length] in *. lia.
Qed.

End Dense.

(** ** The serializer: the spans *)

Section Spans.
Context {services : Services}.

Lemma strongly_sorted_app {A : Type} (R : A -> A -> Prop) :
  forall l1 l2 : list A,
  StronglySorted R (l1 ++ l2) ->
  StronglySorted R l1 /\ StronglySorted R l2 /\
  (forall a b, In a l1 -> In b l2 -> R a b).
Proof.
  induction l1 as [|c l1 IH]; intros l2 Hs; cbn in *.
  - repeat split; [constructor | exact Hs | intros a b []].
  - apply StronglySorted_inv in Hs as [Hs Hc].
    destruct (IH l2 Hs) as (H1 & H2 & H12).
    apply Forall_app in Hc as [Hc1 Hc2].
    repeat split; [now constructor | exact H2 |].
    intros a b [<-|Ha] Hb.
    + now apply (proj1 (Forall_forall _ _) Hc2).
    + now apply H12.
Qed.

Lemma span_extent_spec : forall (rest : list char_info) (prev : Z),
  exists run,
    rest = run ++ snd (span_extent prev rest) /\
    List.length run = fst (span_extent prev rest) /\
    (forall j ch, nth_error run j = Some ch ->
                  codepoint ch = prev + 1 + Z.of_nat j) /\
    (forall ch behind, snd (span_extent prev rest) = ch :: behind ->
                       codepoint ch <> prev + 1 + Z.of_nat (List.length run)).
Proof.
  induction rest as [|c rest IH]; intros prev.
  - exists []. cbn. repeat split; try discriminate.
    intros [|j] ch; discriminate.
  - cbn [span_extent].
    destruct (Z.eqb_spec (codepoint c) (prev + 1)) as [E|E].
    + destruct (IH (codepoint c)) as (run & Hrest & Hlen & Hrun & Hstop).
      destruct (span_extent (codepoint c) rest) as [n behind].
      cbn [fst snd] in *.
      exists (c :: run). repeat split.
      * cbn. now f_equal.
      * cbn. now f_equal.
      * intros [|j] ch Hj; cbn in Hj.
        -- injection Hj as <-. lia.
        -- rewrite (Hrun j ch Hj). lia.
      * intros ch behind' Hb. pose proof (Hstop ch behind' Hb) as Hne.
        cbn [List.length]. lia.
    + exists []. cbn [fst snd app List.length]. repeat split.
      * intros [|j] ch; discriminate.
      * intros ch behind [= <- _]. cbn. lia.
Qed.

Lemma partitions_bounds : forall (spans : list bitmap_span) (from total : Z),
  partitions spans from total ->
  from <= total /\
  forall sp, In sp spans ->
    from <= span_cumulative sp /\
    span_start sp < span_stop sp /\
    span_cumulative sp + (span_stop sp - span_start sp) <= total.
Proof.
  induction spans as [|s spans IH]; intros from total Hp; cbn in Hp.
  - split; [lia | intros sp []].
  - destruct Hp as (Hc & Hlt & Hp).
    destruct (IH _ _ Hp) as [Hle Hall].
    split; [lia|]. intros sp [<-|Hin].
    + lia.
    + specialize (Hall sp Hin). lia.
Qed.

Lemma UInt_wrap_small (z : Z) : 0 <= z < 2 ^ 32 -> UInt.wrap z = z.
Proof. intros H. unfold UInt.wrap, UInt.modulus. now apply Z.mod_small. Qed.

Lemma write_spans_cons fuel cumulative ch rest :
  write_spans (S fuel) cumulative (ch :: rest)
  = let n := fst (span_extent (codepoint ch) rest) in
    let behind := snd (span_extent (codepoint ch) rest) in
    let span_size := UInt.wrap (Z.of_nat (S n)) in
    {| span_start := codepoint ch;
       span_stop := UInt.add (codepoint ch) span_size;
       span_cumulative := cumulative |}
    :: write_spans fuel (UInt.add cumulative span_size) behind.
Proof.
  cbn [write_spans]. destruct (span_extent (codepoint ch) rest). reflexivity.
Qed.

Lemma write_spans_spec : forall (fuel : nat) (l : list char_info) (cum : Z),
  (List.length l <= fuel)%nat ->
  StronglySorted codepoint_lt l ->
  Forall (fun ch => 0 <= codepoint ch < Int.max_int) l ->
  0 <= cum ->
  cum + Z.of_nat (List.length l) < 2 ^ 32 ->
  let spans := write_spans fuel cum l in
  partitions spans cum (cum + Z.of_nat (List.length l)) /\
  (forall sp k,
     In sp spans -> span_start sp <= k < span_stop sp ->
     exists ch,
       nth_error l (Z.to_nat (span_cumulative sp - cum + (k - span_start sp)))
       = Some ch /\
       codepoint ch = k) /\
  (forall ch, In ch l ->
     exists sp, In sp spans /\ span_start sp <= codepoint ch < span_stop sp) /\
  (forall sp ch, In sp spans -> In ch l ->
     codepoint ch <> span_stop sp /\ codepoint ch <> span_start sp - 1).
Proof.
  induction fuel as [|fuel IH]; intros l cum Hfuel Hs Hv Hcum Hlen; cbv zeta.
  - destruct l; [|cbn in Hfuel; lia]. cbn.
    split; [lia|]. split; [intros sp k []|]. split; [intros ch []|].
    intros sp ch [].
  - destruct l as [|c rest].
    { cbn. split; [lia|]. split; [intros sp k []|]. split; [intros ch []|].
      intros sp ch []. }
    rewrite write_spans_cons. cbv zeta.
    destruct (span_extent_spec rest (codepoint c))
      as (run & Hrest & Hrunlen & Hrun & Hstop).
    set (n := fst (span_extent (codepoint c) rest)) in *.
    set (behind := snd (span_extent (codepoint c) rest)) in *.
    clearbody n behind. subst rest.
    apply StronglySorted_inv in Hs as [Hs Hc].
    apply Forall_cons_iff in Hv as [Hvc Hv].
    destruct (strongly_sorted_app _ _ _ Hs) as (Hsrun & Hsbehind & Hcross).
    apply Forall_app in Hv as [Hvrun Hvbehind].
    apply Forall_app in Hc as [Hcrun Hcbehind].
    cbn [List.length] in Hfuel, Hlen. rewrite length_app in Hfuel, Hlen.
    (* the run *)
    assert (Hrun_in : forall ch, In ch run ->
              codepoint c < codepoint ch <= codepoint c + Z.of_nat n).
    { intros ch Hin. apply In_nth_error in Hin as [j Hj].
      pose proof (Hrun j ch Hj) as E.
      assert (j < List.length run)%nat
        by (apply nth_error_Some; congruence).
      lia. }
    assert (Hrun_nth : forall j, (j < n)%nat ->
              exists ch, nth_error run j = Some ch /\
                         codepoint ch = codepoint c + 1 + Z.of_nat j).
    { intros j Hj.
      destruct (nth_error run j) as [ch|] eqn:E.
      - exists ch. split; [reflexivity | now apply Hrun].
      - apply nth_error_None in E. lia. }
    assert (Htop : codepoint c + Z.of_nat n < Int.max_int).
    { destruct n as [|n']; [lia|].
      destruct (Hrun_nth n' ltac:(lia)) as (ch & Hch & E).
      apply nth_error_In in Hch.
      pose proof (proj1 (Forall_forall _ _) Hvrun ch Hch) as B.
      cbv beta in B. lia. }
    (* the records behind the run *)
    assert (Hbehind_in : forall ch, In ch behind ->
              codepoint c + Z.of_nat (S n) < codepoint ch).
    { intros ch Hin.
      assert (Hgt : forall b, In b behind ->
                codepoint c + Z.of_nat n < codepoint b).
      { intros b Hb. destruct n as [|n'].
        - pose proof (proj1 (Forall_forall _ _) Hcbehind b Hb) as B.
          unfold codepoint_lt in B. lia.
        - destruct (Hrun_nth n' ltac:(lia)) as (a & Ha & E).
          apply nth_error_In in Ha.
          pose proof (Hcross a b Ha Hb) as B.
          unfold codepoint_lt in B. lia. }
      destruct behind as [|b behind']; [destruct Hin|].
      pose proof (Hstop b behind' eq_refl) as Hne.
      pose proof (Hgt b (or_introl eq_refl)) as Hb.
      destruct Hin as [<-|Hin]; [lia|].
      apply StronglySorted_inv in Hsbehind as [_ Hbb].
      pose proof (proj1 (Forall_forall _ _) Hbb ch Hin) as B.
      unfold codepoint_lt in B. lia. }
    rewrite Int_max_int_value in Htop.
    assert (Hsize : UInt.wrap (Z.of_nat (S n)) = Z.of_nat (S n))
      by (apply UInt_wrap_small; lia).
    rewrite Hsize. unfold UInt.add.
    rewrite !UInt_wrap_small by lia.
    destruct (IH behind (cum + Z.of_nat (S n)) ltac:(lia) Hsbehind
                 Hvbehind ltac:(lia) ltac:(lia))
      as (Hpart & Hidx & Hcover & Hmax).
    set (spans' := write_spans fuel (cum + Z.of_nat (S n)) behind) in *.
    clearbody spans'.
    destruct (partitions_bounds _ _ _ Hpart) as [_ Hbounds].
    assert (Hstart : forall sp, In sp spans' ->
              codepoint c + Z.of_nat (S n) < span_start sp).
    { intros sp Hsp.
      destruct (Hbounds sp Hsp) as (_ & Hlt & _).
      destruct (Hidx sp (span_start sp) Hsp ltac:(lia)) as (ch & Hch & E).
      apply nth_error_In in Hch. specialize (Hbehind_in ch Hch). lia. }
    split; [|split; [|split]].
    + cbn [partitions span_cumulative span_start span_stop].
      split; [reflexivity|]. split; [lia|].
      replace (cum + (codepoint c + Z.of_nat (S n) - codepoint c))
        with (cum + Z.of_nat (S n)) by lia.
      replace (cum + Z.of_nat (List.length (c :: run ++ behind)))
        with (cum + Z.of_nat (S n) + Z.of_nat (List.length behind))
        by (cbn [List.length]; rewrite length_app; lia).
      exact Hpart.
    + intros sp k [<-|Hsp] Hk;
        cbn [span_cumulative span_start span_stop] in *.
      * destruct (Z.eq_dec k (codepoint c)) as [->|Hne].
        -- exists c. split; [|reflexivity].
           replace (Z.to_nat (cum - cum + (codepoint c - codepoint c)))
             with O by lia.
           reflexivity.
        -- destruct (Hrun_nth (Z.to_nat (k - codepoint c - 1)) ltac:(lia))
             as (ch & Hch & E).
           exists ch. split; [|lia].
           replace (Z.to_nat (cum - cum + (k - codepoint c)))
             with (S (Z.to_nat (k - codepoint c - 1))) by lia.
           cbn [nth_error]. rewrite nth_error_app1 by lia. exact Hch.
      * destruct (Hbounds sp Hsp) as (Hge & _ & _).
        destruct (Hidx sp k Hsp Hk) as (ch & Hch & E).
        exists ch. split; [|exact E].
        replace (Z.to_nat (span_cumulative sp - cum + (k - span_start sp)))
          with (S (List.length run
                   + Z.to_nat (span_cumulative sp - (cum + Z.of_nat (S n))
                               + (k - span_start sp)))) by lia.
        cbn [nth_error]. rewrite nth_error_app2 by lia.
        replace (List.length run
                 + Z.to_nat (span_cumulative sp - (cum + Z.of_nat (S n))
                             + (k - span_start sp)) - List.length run)%nat
          with (Z.to_nat (span_cumulative sp - (cum + Z.of_nat (S n))
                          + (k - span_start sp))) by lia.
        exact Hch.
    + intros ch [<-|Hin].
      * eexists. split; [now left|]. cbn. lia.
      * apply in_app_or in Hin as [Hin|Hin].
        -- eexists. split; [now left|]. cbn. specialize (Hrun_in ch Hin). lia.
        -- destruct (Hcover ch Hin) as (sp & Hsp & Hk).
           exists sp. split; [now right | exact Hk].
    + intros sp ch Hsp Hch.
      assert (Hcases : codepoint c <= codepoint ch <= codepoint c + Z.of_nat n
                       \/ In ch behind).
      { destruct Hch as [<-|Hch]; [left; lia|].
        apply in_app_or in Hch as [Hch|Hch]; [left | now right].
        specialize (Hrun_in ch Hch). lia. }
      destruct Hsp as [<-|Hsp]; cbn [span_start span_stop].
      * destruct Hcases as [Hc1|Hc2]; [lia|].
        specialize (Hbehind_in ch Hc2). lia.
      * destruct Hcases as [Hc1|Hc2].
        -- specialize (Hstart sp Hsp).
           destruct (Hbounds sp Hsp) as (_ & Hlt & _). lia.
        -- now apply Hmax.
Qed.

End Spans.

(** ** Claims about the description *)

Section Description.
Context {services : Services}.

Lemma description_of_fields charinfos cfg scaling d :
  description_of charinfos cfg scaling = Some d ->
  let sorted := sort_by_codepoint charinfos in
  font_codepoint_spans d
  = (if use_spans cfg
     then Some (write_spans (List.length sorted) 0 sorted) else None) /\
  font_codepoint_infos d = fst (write_glyphs (use_spans cfg) 0 sorted) /\
  bitmap_chars_count d
  = SizeT.add (snd (write_glyphs (use_spans cfg) 0 sorted)) 1.
Proof.
  unfold description_of, write_description.
  destruct (write_glyphs (use_spans cfg) 0 (sort_by_codepoint charinfos))
    as [glyphs last].
  cbn. intros [= <-]. cbn. repeat split.
Qed.

Lemma description_of_total charinfos cfg scaling :
  exists d, description_of charinfos cfg scaling = Some d.
Proof.
  unfold description_of, write_description.
  destruct (write_glyphs (use_spans cfg) 0 (sort_by_codepoint charinfos)).
  cbn. eauto.
Qed.

Lemma max_codepoint_lower l : -1 <= max_codepoint l.
Proof.
  induction l as [|c l IH]; [cbn; lia|].
  change (max_codepoint (c :: l))
    with (Z.max (codepoint c) (max_codepoint l)). lia.
Qed.

Lemma sorted_facts charinfos :
  distinct_codepoints charinfos ->
  let sorted := sort_by_codepoint charinfos in
  StronglySorted codepoint_lt sorted /\
  Forall (fun ch => 0 <= codepoint ch < Int.max_int) sorted /\
  (forall ch, In ch sorted <-> In ch charinfos) /\
  max_codepoint sorted = max_codepoint charinfos /\
  List.length sorted = List.length charinfos /\
  Z.of_nat (List.length sorted) <= max_codepoint charinfos + 1 /\
  max_codepoint charinfos < Int.max_int.
Proof.
  intros Hd. cbv zeta.
  destruct (sort_by_codepoint_increasing charinfos Hd) as [Hs [_ Hv]].
  pose proof (sort_by_codepoint_perm charinfos) as Hp.
  revert Hs Hv Hp. generalize (sort_by_codepoint charinfos).
  intros sorted Hs Hv Hp.
  assert (Hmax : max_codepoint sorted = max_codepoint charinfos)
    by now apply max_codepoint_perm.
  split; [exact Hs|]. split; [exact Hv|]. split; [|split; [exact Hmax|]].
  - intros ch. split; apply Permutation_in; [exact Hp | now symmetry].
  - split; [now apply Permutation_length|].
    rewrite <- Hmax. split.
    + destruct sorted as [|c l] eqn:E.
      * pose proof (max_codepoint_lower []). cbn [List.length]. lia.
      * rewrite <- E in *.
        assert (Hlo : Forall (fun ch => 0 <= codepoint ch) sorted).
        { eapply Forall_impl; [|exact Hv]. cbv beta. intros a Ha. lia. }
        pose proof (increasing_length sorted 0 Hs Hlo
                      ltac:(rewrite E; discriminate)). lia.
    + destruct sorted as [|c l] eqn:E.
      * change (max_codepoint []) with (-1).
        rewrite Int_max_int_value. lia.
      * rewrite <- E in *.
        assert (Hin : forall ch, In ch sorted -> codepoint ch < Int.max_int).
        { intros ch Hch.
          pose proof (proj1 (Forall_forall _ _) Hv ch Hch) as B.
          cbv beta in B. lia. }
        clear - Hin. rewrite Int_max_int_value in *.
        induction sorted as [|a l' IH]; [cbn; lia|].
        change (max_codepoint (a :: l'))
          with (Z.max (codepoint a) (max_codepoint l')).
        pose proof (Hin a (or_introl eq_refl)).
        assert (max_codepoint l' < 2147483647).
        { apply IH. intros ch Hch. apply Hin. now right. }
        lia.
Qed.

(** C3, amended.  For a record set whose codepoints are pairwise
    distinct (and are codepoints: not negative, below the largest
    [int]), the description written after the sort has the round-trip
    property.  Without spans the table has one entry per codepoint from
    0 up to the largest retained one, the entry at index k is the entry
    of the record of codepoint k, and an all-zero entry where no record
    has codepoint k.  With spans the table holds the entries of the
    records only; the cumulative offsets of the spans cut the table into
    adjacent non-empty pieces from 0 to its length; the piece of a span
    holds, in order, the entries of the records of the codepoints from
    its start up to its end, exclusive; every record lies in a span; and
    no record has the codepoint just before a span or at its end. *)
Theorem description_round_trip (charinfos : list char_info) (cfg : settings)
  (scaling : Q) (d : description) :
  distinct_codepoints charinfos ->
  description_of charinfos cfg scaling = Some d ->
  let glyphs := font_codepoint_infos d in
  if use_spans cfg then
    exists spans,
      font_codepoint_spans d = Some spans /\
      List.length glyphs = List.length charinfos /\
      partitions spans 0 (Z.of_nat (List.length glyphs)) /\
      (forall sp k,
         In sp spans -> span_start sp <= k < span_stop sp ->
         exists ch,
           In ch charinfos /\ codepoint ch = k /\
           nth_error glyphs
             (Z.to_nat (span_cumulative sp + (k - span_start sp)))
           = Some (glyph_of ch)) /\
      (forall ch, In ch charinfos ->
         exists sp,
           In sp spans /\ span_start sp <= codepoint ch < span_stop sp) /\
      (forall sp ch, In sp spans -> In ch charinfos ->
         codepoint ch <> span_stop sp /\ codepoint ch <> span_start sp - 1)
  else
    font_codepoint_spans d = None /\
    Z.of_nat (List.length glyphs) = max_codepoint charinfos + 1 /\
    (forall ch, In ch charinfos ->
       nth_error glyphs (Z.to_nat (codepoint ch)) = Some (glyph_of ch)) /\
    (forall k, 0 <= k <= max_codepoint charinfos ->
       (forall ch, In ch charinfos -> codepoint ch <> k) ->
       nth_error glyphs (Z.to_nat k) = Some zero_glyph).
Proof.
  intros Hd Hdesc. cbv zeta.
  destruct (description_of_fields _ _ _ _ Hdesc) as (Hsp & Hg & _).
  destruct (sorted_facts charinfos Hd)
    as (Hs & Hv & Hin & Hmax & Hlen & Hbound & Htop).
  cbv zeta in *. rewrite Hsp, Hg.
  revert Hs Hv Hin Hmax Hlen Hbound.
  generalize (sort_by_codepoint charinfos).
  intros sorted Hs Hv Hin Hmax Hlen Hbound.
  rewrite Int_max_int_value in Htop.
  destruct (use_spans cfg).
  - eexists. split; [reflexivity|].
    rewrite write_glyphs_spans, length_map.
    destruct (write_spans_spec (List.length sorted) sorted 0
                (le_n _) Hs Hv ltac:(lia) ltac:(lia))
      as (Hpart & Hidx & Hcover & Hmaxi).
    split; [exact Hlen|]. split; [exact Hpart|].
    split; [|split].
    + intros sp k Hsp' Hk.
      destruct (Hidx sp k Hsp' Hk) as (ch & Hch & E).
      exists ch. split; [apply Hin; eapply nth_error_In; exact Hch|].
      split; [exact E|].
      rewrite nth_error_map.
      replace (span_cumulative sp + (k - span_start sp))
        with (span_cumulative sp - 0 + (k - span_start sp)) by lia.
      now rewrite Hch.
    + intros ch Hch. apply Hcover. now apply Hin.
    + intros sp ch Hsp' Hch. apply Hmaxi; [exact Hsp' | now apply Hin].
  - assert (Hv0 : Forall (fun ch => 0 <= codepoint ch < Int.max_int) sorted)
      by exact Hv.
    destruct (write_glyphs_dense sorted 0 Hs Hv0 ltac:(lia))
      as (Hlast & Hlength & Hreal & Hzero).
    pose proof (max_codepoint_lower sorted) as Hlow.
    split; [reflexivity|]. split; [lia|]. split.
    + intros ch Hch.
      replace (codepoint ch) with (codepoint ch - 0) by lia.
      apply Hreal. now apply Hin.
    + intros k Hk Hnone.
      replace k with (k - 0) by lia.
      apply Hzero; [lia|].
      intros ch Hch. apply Hnone. now apply Hin.
Qed.

(** C4: the count.  For a record set with pairwise distinct codepoints
    the count field is the largest codepoint plus 2: one more than the
    number of entries of the dense table, and more than the number of
    entries of the table with spans, which is the number of records. *)
Theorem chars_count_exceeds_entries (charinfos : list char_info)
  (cfg : settings) (scaling : Q) (d : description) :
  distinct_codepoints charinfos ->
  description_of charinfos cfg scaling = Some d ->
  let entries := Z.of_nat (List.length (font_codepoint_infos d)) in
  bitmap_chars_count d = max_codepoint charinfos + 2 /\
  entries < bitmap_chars_count d /\
  (use_spans cfg = false -> bitmap_chars_count d = entries + 1) /\
  (use_spans cfg = true -> entries = Z.of_nat (List.length charinfos)).
Proof.
  intros Hd Hdesc. cbv zeta.
  destruct (description_of_fields _ _ _ _ Hdesc) as (_ & Hg & Hc).
  destruct (sorted_facts charinfos Hd)
    as (Hs & Hv & Hin & Hmax & Hlen & Hbound & Htop).
  cbv zeta in *. rewrite Hg, Hc.
  revert Hs Hv Hin Hmax Hlen Hbound.
  generalize (sort_by_codepoint charinfos).
  intros sorted Hs Hv Hin Hmax Hlen Hbound.
  rewrite Int_max_int_value in Htop.
  pose proof (max_codepoint_lower sorted) as Hlow.
  rewrite (write_glyphs_last (use_spans cfg) sorted 0 Hs Hv ltac:(lia)).
  assert (Hcount : SizeT.add (Z.max 0 (max_codepoint sorted + 1)) 1
                   = max_codepoint charinfos + 2).
  { unfold SizeT.add. rewrite SizeT_wrap_small; [lia|].
    unfold SizeT.in_range. rewrite SizeT_modulus_value. lia. }
  rewrite Hcount.
  assert (Hentries :
            Z.of_nat (List.length (fst (write_glyphs (use_spans cfg) 0 sorted)))
            = if use_spans cfg then Z.of_nat (List.length charinfos)
              else max_codepoint charinfos + 1).
  { destruct (use_spans cfg).
    - rewrite write_glyphs_spans, length_map. now rewrite Hlen.
    - destruct (write_glyphs_dense sorted 0 Hs Hv ltac:(lia))
        as (Hlast & Hlength & _). lia. }
  rewrite Hentries.
  split; [reflexivity|].
  destruct (use_spans cfg).
  - repeat split; try discriminate; lia.
  - repeat split; try discriminate; lia.
Qed.

End Description.

(** C3, as stated, fails: for the ranges 65-68 and 66-67, which
    overlap, the record of codepoint 66 is retained twice; the dense
    table then has 69 entries for the codepoints 0 to 67, and the entry
    at index 67 is that of codepoint 66. *)
Lemma dense_table_shifted_by_duplicate :
  let cfg :=
    Samples.sample_settings
      [Samples.range_ABC; {| range_begin := 66; range_end := 67 |}]
      64 32 false false sdf in
  let charinfos := @read_shapes Samples.toy Samples.abc cfg in
  exists d b c,
    @description_of Samples.toy charinfos cfg 1 = Some d /\
    In b charinfos /\ codepoint b = 66 /\
    In c charinfos /\ codepoint c = 67 /\
    max_codepoint charinfos = 67 /\
    List.length (font_codepoint_infos d) = 69%nat /\
    nth_error (font_codepoint_infos d) 67 = Some (glyph_of b) /\
    glyph_of b <> glyph_of c.
Proof.
  intros cfg charinfos.
  destruct (@description_of_total Samples.toy charinfos cfg 1) as [d Hd].
  exists d.
  destruct (@description_of_fields Samples.toy _ _ _ _ Hd) as (_ & Hg & _).
  exists (nth 1 charinfos (nth 0 charinfos (nth 0 charinfos
            (@new_char_info Samples.toy 0
               {| x_ := 0; y_ := 0; width_ := 0; height_ := 0 |}%Q None 0%Q)))).
  exists (nth 2 charinfos (nth 0 charinfos (nth 0 charinfos
            (@new_char_info Samples.toy 0
               {| x_ := 0; y_ := 0; width_ := 0; height_ := 0 |}%Q None 0%Q)))).
  split; [exact Hd|].
  split; [right; left; reflexivity|]. split; [reflexivity|].
  split; [right; right; left; reflexivity|]. split; [reflexivity|].
  split; [reflexivity|].
  rewrite Hg. split; [vm_compute; reflexivity|].
  split; [vm_compute; reflexivity|].
  vm_compute. discriminate.
Qed.

Lemma sample_records_distinct (cfg : settings) (cps : list Z) :
  map codepoint (@read_shapes Samples.toy Samples.abc cfg) = cps ->
  NoDup cps ->
  Forall (fun z => 0 <= z < Int.max_int) cps ->
  @distinct_codepoints Samples.toy (@read_shapes Samples.toy Samples.abc cfg).
Proof.
  intros E Hnd Hv. split.
  - now rewrite E.
  - apply Forall_map with (f := codepoint)
                          (P := fun z => 0 <= z < Int.max_int).
    now rewrite E.
Qed.

Lemma NoDup_65_66_67 : NoDup [65; 66; 67].
Proof.
  repeat constructor; cbn; intuition discriminate.
Qed.

Lemma valid_65_66_67 : Forall (fun z => 0 <= z < Int.max_int) [65; 66; 67].
Proof.
  rewrite Int_max_int_value. repeat constructor; lia.
Qed.

Lemma description_round_trip_witness :
  let cfg := Samples.sample_settings [Samples.range_ABC] 64 32 false true sdf in
  let charinfos := @read_shapes Samples.toy Samples.abc cfg in
  exists d,
    @distinct_codepoints Samples.toy charinfos /\
    @description_of Samples.toy charinfos cfg 1 = Some d /\
    let glyphs := font_codepoint_infos d in
    if use_spans cfg then
      exists spans,
        font_codepoint_spans d = Some spans /\
        List.length glyphs = List.length charinfos /\
        partitions spans 0 (Z.of_nat (List.length glyphs)) /\
        (forall sp k,
           In sp spans -> span_start sp <= k < span_stop sp ->
           exists ch,
             In ch charinfos /\ codepoint ch = k /\
             nth_error glyphs
               (Z.to_nat (span_cumulative sp + (k - span_start sp)))
             = Some (glyph_of ch)) /\
        (forall ch, In ch charinfos ->
           exists sp,
             In sp spans /\ span_start sp <= codepoint ch < span_stop sp) /\
        (forall sp ch, In sp spans -> In ch charinfos ->
           codepoint ch <> span_stop sp /\ codepoint ch <> span_start sp - 1)
    else
      font_codepoint_spans d = None /\
      Z.of_nat (List.length glyphs) = max_codepoint charinfos + 1 /\
      (forall ch, In ch charinfos ->
         nth_error glyphs (Z.to_nat (codepoint ch)) = Some (glyph_of ch)) /\
      (forall k, 0 <= k <= max_codepoint charinfos ->
         (forall ch, In ch charinfos -> codepoint ch <> k) ->
         nth_error glyphs (Z.to_nat k) = Some zero_glyph).
Proof.
  intros cfg charinfos.
  destruct (@description_of_total Samples.toy charinfos cfg 1) as [d Hdesc].
  exists d.
  assert (Hd : @distinct_codepoints Samples.toy charinfos).
  { apply (sample_records_distinct cfg [65; 66; 67]).
    - reflexivity.
    - exact NoDup_65_66_67.
    - exact valid_65_66_67. }
  split; [exact Hd|]. split; [exact Hdesc|].
  exact (@description_round_trip Samples.toy charinfos cfg 1 d Hd Hdesc).
Defined.

Lemma chars_count_exceeds_entries_witness :
  let cfg := Samples.sample_settings [Samples.range_ABC] 64 32 false false sdf in
  let charinfos := @read_shapes Samples.toy Samples.abc cfg in
  exists d,
    @distinct_codepoints Samples.toy charinfos /\
    @description_of Samples.toy charinfos cfg 1 = Some d /\
    let entries := Z.of_nat (List.length (font_codepoint_infos d)) in
    bitmap_chars_count d = max_codepoint charinfos + 2 /\
    entries < bitmap_chars_count d /\
    (use_spans cfg = false -> bitmap_chars_count d = entries + 1) /\
    (use_spans cfg = true -> entries = Z.of_nat (List.length charinfos)).
Proof.
  intros cfg charinfos.
  destruct (@description_of_total Samples.toy charinfos cfg 1) as [d Hdesc].
  exists d.
  assert (Hd : @distinct_codepoints Samples.toy charinfos).
  { apply (sample_records_distinct cfg [65; 66; 67]).
    - reflexivity.
    - exact NoDup_65_66_67.
    - exact valid_65_66_67. }
  split; [exact Hd|]. split; [exact Hdesc|].
  exact (@chars_count_exceeds_entries Samples.toy charinfos cfg 1 d Hd Hdesc).
Defined.

(** The description of the records A, B, C: 68 entries and the count 69
    without spans; 3 entries, one span and the count 69 with spans. *)
Example count_of_ABC :
  let dense := Samples.sample_settings [Samples.range_ABC] 64 32 false false sdf in
  let spans := Samples.sample_settings [Samples.range_ABC] 64 32 false true sdf in
  let charinfos := @read_shapes Samples.toy Samples.abc dense in
  option_map (fun d => (List.length (font_codepoint_infos d),
                        bitmap_chars_count d))
             (@description_of Samples.toy charinfos dense 1)
  = Some (68%nat, 69) /\
  option_map (fun d => (List.length (font_codepoint_infos d),
                        font_codepoint_spans d, bitmap_chars_count d))
             (@description_of Samples.toy charinfos spans 1)
  = Some (3%nat,
          Some [{| span_start := 65; span_stop := 68;
                   span_cumulative := 0 |}],
          69).
Proof. split; vm_compute; reflexivity. Qed.

(* ================================================================== *)
(** * Part III: further properties of the program *)
(* ================================================================== *)

(** ** Glyph collection *)

Section Collection.
Context {services : Services}.

Lemma in_codepoints_of (rg : codepoint_range) (i : Z) :
  In i (codepoints_of rg) <-> in_codepoint_range rg i.
Proof.
  unfold codepoints_of, in_codepoint_range. rewrite in_map_iff. split.
  - intros (k & <- & Hk). apply in_seq in Hk. lia.
  - intros Hi. exists (Z.to_nat (i - range_begin rg)). split; [lia|].
    apply in_seq. lia.
Qed.

Lemma codepoints_of_NoDup (rg : codepoint_range) : NoDup (codepoints_of rg).
Proof.
  unfold codepoints_of.
  generalize (seq_NoDup (Z.to_nat (range_end rg - range_begin rg)) 0).
  generalize (seq 0 (Z.to_nat (range_end rg - range_begin rg))).
  induction l as [|k l IH]; intros Hnd; cbn; [constructor|].
  apply NoDup_cons_iff in Hnd as [Hk Hnd].
  constructor; [|now apply IH].
  rewrite in_map_iff. intros (k' & E & Hk').
  assert (k' = k) by lia. now subst k'.
Qed.


(** X1.  [read_shapes] retains a record exactly for the codepoints of the
    configured ranges for which the font has a glyph whose raw outline is
    wider than 0; the record carries the codepoint as an [int], the
    bounds of the raw outline, the normalised outline and the advance,
    and nothing else yet. *)
Theorem read_shapes_retains (font : FontHandle) (cfg : settings)
  (ch : char_info) :
  In ch (read_shapes font cfg) <->
  exists rg i outline adv,
    In rg (codepoint_ranges cfg) /\
    in_codepoint_range rg i /\
    loadGlyph font i = Some (outline, adv) /\
    (0 < width (bounds outline))%Q /\
    ch = new_char_info (Int.of_Z i) (bounds outline)
                       (Shape_normalize outline) adv.
Proof.
  unfold read_shapes. rewrite in_flat_map. split.
  - intros (rg & Hrg & Hin). apply in_flat_map in Hin as (i & Hi & Hin).
    apply in_codepoints_of in Hi. unfold read_shape in Hin.
    destruct (loadGlyph font i) as [[outline adv]|] eqn:Hg; [|destruct Hin].
    destruct (Qlt_le_dec 0 (width (bounds outline))) as [Hw|Hw];
      [|destruct Hin].
    destruct Hin as [<-|[]]. exists rg, i, outline, adv. auto.
  - intros (rg & i & outline & adv & Hrg & Hi & Hg & Hw & ->).
    exists rg. split; [exact Hrg|]. apply in_flat_map. exists i.
    split; [now apply in_codepoints_of|].
    unfold read_shape. rewrite Hg.
    destruct (Qlt_le_dec 0 (width (bounds outline))) as [_|Hle].
    + now left.
    + exfalso. apply (Qlt_irrefl 0). eapply Qlt_le_trans; eassumption.
Qed.

(** X2.  A glyph whose outline has no contour, so that [shape.bounds]
    leaves the extrema it is handed as they are (the space), is never
    retained: between the sentinels the width is negative. *)
Theorem read_shape_drops_empty_outline (font : FontHandle) (i : Z)
  (outline : Shape) (adv : Q) :
  loadGlyph font i = Some (outline, adv) ->
  Shape_bounds outline sentinel_extrema = sentinel_extrema ->
  (width (bounds outline) == - (5500000 # 1))%Q /\
  read_shape font i = [].
Proof.
  intros Hg Hb.
  assert (Hw : (width (bounds outline) == - (5500000 # 1))%Q).
  { unfold bounds. fold sentinel_extrema. rewrite Hb. reflexivity. }
  split; [exact Hw|].
  unfold read_shape. rewrite Hg.
  destruct (Qlt_le_dec 0 (width (bounds outline))) as [Hlt|_]; [|reflexivity].
  exfalso. rewrite Hw in Hlt. discriminate.
Qed.

Lemma Int_of_Z_small (i : Z) : 0 <= i < Int.max_int -> Int.of_Z i = i.
Proof.
  intros H. rewrite Int_max_int_value in H. unfold Int.of_Z.
  rewrite Z.mod_small; lia.
Qed.

Lemma read_shape_codepoints (font : FontHandle) (i : Z) :
  map codepoint (read_shape font i) = []
  \/ map codepoint (read_shape font i) = [Int.of_Z i].
Proof.
  unfold read_shape.
  destruct (loadGlyph font i) as [[outline adv]|]; [|now left].
  destruct (Qlt_le_dec 0 (width (bounds outline))); [now right | now left].
Qed.

Lemma read_range_codepoints (font : FontHandle) : forall l : list Z,
  Forall (fun i => 0 <= i < Int.max_int) l ->
  NoDup l ->
  NoDup (map codepoint (flat_map (read_shape font) l)) /\
  (forall c, In c (map codepoint (flat_map (read_shape font) l)) -> In c l).
Proof.
  induction l as [|i l IH]; intros Hv Hnd.
  - split; [constructor | intros c []].
  - apply Forall_cons_iff in Hv as [Hi Hv].
    apply NoDup_cons_iff in Hnd as [Hni Hnd].
    destruct (IH Hv Hnd) as [IHnd IHin].
    cbn [flat_map]. rewrite map_app.
    destruct (read_shape_codepoints font i) as [E|E]; rewrite E.
    + cbn [app]. split; [exact IHnd|]. intros c Hc. right. now apply IHin.
    + rewrite (Int_of_Z_small i Hi). cbn [app]. split.
      * constructor; [|exact IHnd]. intros Hc. apply Hni. now apply IHin.
      * intros c [<-|Hc]; [now left | right; now apply IHin].
Qed.

Lemma read_ranges_codepoints (font : FontHandle) :
  forall ranges : list codepoint_range,
  ranges_disjoint ranges ->
  ranges_of_int ranges ->
  let cps :=
    map codepoint
        (flat_map (fun rg => flat_map (read_shape font) (codepoints_of rg))
                  ranges) in
  NoDup cps /\
  (forall c, In c cps -> exists rg, In rg ranges /\ in_codepoint_range rg c).
Proof.
  unfold ranges_disjoint, ranges_of_int.
  assert (Hvalid : forall rg,
            0 <= range_begin rg /\ range_end rg <= Int.max_int ->
            Forall (fun i => 0 <= i < Int.max_int) (codepoints_of rg)).
  { intros rg Hrg. apply Forall_forall. intros i Hi.
    apply in_codepoints_of in Hi. unfold in_codepoint_range in Hi. lia. }
  induction ranges as [|rg l IH]; intros Hdis Hint; cbv zeta.
  - split; [constructor | intros c []].
  - inversion Hdis as [|? ? Hrg Hdis']; subst.
    apply Forall_cons_iff in Hint as [Hrgv Hint].
    destruct (IH Hdis' Hint) as [IHnd IHin].
    destruct (read_range_codepoints font (codepoints_of rg)
                (Hvalid rg Hrgv) (codepoints_of_NoDup rg)) as [Hnd Hin].
    cbn [flat_map]. rewrite map_app. split.
    + apply NoDup_app; try assumption.
      intros c Hc Hc'. apply Hin, in_codepoints_of in Hc.
      destruct (IHin c Hc') as (rg' & Hrg' & Hc'').
      exact (proj1 (Forall_forall _ _) Hrg rg' Hrg' _ Hc Hc'').
    + intros c Hc. apply in_app_or in Hc as [Hc|Hc].
      * exists rg. split; [now left|]. now apply in_codepoints_of, Hin.
      * destruct (IHin c Hc) as (rg' & Hrg' & Hc').
        exists rg'. split; [now right | exact Hc'].
Qed.

(** X3.  When the configured ranges do not overlap and hold codepoints
    of an [int], the retained records have pairwise distinct codepoints,
    none negative: the record sets the serializer is made for. *)
Theorem read_shapes_distinct (font : FontHandle) (cfg : settings) :
  ranges_disjoint (codepoint_ranges cfg) ->
  ranges_of_int (codepoint_ranges cfg) ->
  distinct_codepoints (read_shapes font cfg).
Proof.
  intros Hdis Hint.
  destruct (read_ranges_codepoints font _ Hdis Hint) as [Hnd Hin].
  split; [exact Hnd|].
  apply Forall_forall. intros ch Hch.
  destruct (Hin (codepoint ch) (in_map codepoint _ _ Hch))
    as (rg & Hrg & Hc).
  pose proof (proj1 (Forall_forall _ _) Hint rg Hrg) as Hv.
  unfold in_codepoint_range in Hc. cbv beta in Hv. lia.
Qed.

End Collection.

(** ** Scaling and packing *)

Section Geometry.
Context {services : Services}.

Lemma Forall2_map_map {A B : Type} (R : B -> B -> Prop) (f g : A -> B) :
  (forall a, R (f a) (g a)) ->
  forall l, Forall2 R (map f l) (map g l).
Proof.
  intros H. induction l as [|a l IH]; cbn; constructor; auto.
Qed.

Lemma scale_char_geometry cfg scaling ch :
  same_geometry (scale_char cfg scaling false ch)
                (scale_char cfg scaling true ch).
Proof.
  unfold same_geometry, scale_char, render.
  destruct (mode cfg); repeat split.
Qed.

Lemma build_charset_placements font cfg :
  map placement (fst (fst (build_charset font cfg false)))
  = map placement (fst (fst (build_charset font cfg true))).
Proof.
  unfold build_charset. cbn [fst]. rewrite !map_map.
  apply map_ext. intros ch. apply scale_char_geometry.
Qed.

Lemma build_atlas_verdict charinfos charinfos' cfg :
  map placement charinfos = map placement charinfos' ->
  fst (build_atlas charinfos cfg) = fst (build_atlas charinfos' cfg).
Proof.
  intros E. unfold build_atlas. rewrite E.
  destruct (bin_pack_max_rect _ _ _ _). reflexivity.
Qed.

(** X4.  The probes of the search and the committed run scale alike:
    with and without rendering, [build_charset] returns records of the
    same codepoints, boxes, placement extents, translations and advances,
    so the packer sees the same rectangles, and the verdict of a probe at
    a height is the verdict of the committed run at that height. *)
Theorem probe_is_committed_verdict (font : FontHandle) (cfg : settings)
  (h : Z) :
  Forall2 same_geometry
          (fst (fst (build_charset font cfg false)))
          (fst (fst (build_charset font cfg true))) /\
  snd (fst (build_charset font cfg false))
  = snd (fst (build_charset font cfg true)) /\
  fst (probe font cfg h)
  = fst (build_atlas
           (fst (fst (build_charset font (set_max_char_height cfg h) true)))
           (set_max_char_height cfg h)).
Proof.
  split; [|split].
  - unfold build_charset. cbn [fst].
    apply Forall2_map_map. intros ch. apply scale_char_geometry.
  - reflexivity.
  - unfold probe.
    pose proof (build_charset_placements font (set_max_char_height cfg h))
      as E.
    apply (build_atlas_verdict _ _ (set_max_char_height cfg h)) in E.
    rewrite <- E.
    destruct (build_charset font (set_max_char_height cfg h) false)
      as [[charinfos scaling] ev].
    cbn [fst]. destruct (build_atlas charinfos _). reflexivity.
Qed.

Lemma store_placements_frame : forall (charinfos : list char_info)
  (rects : list (box Z)),
  Forall2 same_but_placement charinfos (store_placements charinfos rects).
Proof.
  induction charinfos as [|ch l IH]; intros rects; [constructor|].
  destruct rects as [|rc rects]; cbn [store_placements].
  - clear IH. induction (ch :: l) as [|c l' IH']; constructor;
      [repeat split | exact IH'].
  - constructor; [repeat split | apply IH].
Qed.

Lemma store_placements_all : forall (charinfos : list char_info)
  (rects : list (box Z)),
  List.length rects = List.length charinfos ->
  map placement (store_placements charinfos rects) = rects.
Proof.
  induction charinfos as [|ch l IH]; intros [|rc rects] Hlen;
    try discriminate; [reflexivity|].
  cbn [store_placements map placement]. f_equal. apply IH.
  cbn in Hlen. lia.
Qed.

(** X5.  [build_atlas] touches nothing but the placements: it returns
    as many records, in the same order, with their codepoints, boxes,
    shapes, translations, advances and bitmaps; when the packer leaves
    one rectangle per record, these are the placements. *)
Theorem build_atlas_frame (charinfos : list char_info) (cfg : settings) :
  Forall2 same_but_placement charinfos (snd (build_atlas charinfos cfg)) /\
  (List.length
     (snd (bin_pack_max_rect (map placement charinfos)
                             (tex_width (tex_dims cfg))
                             (tex_height (tex_dims cfg)) (spacing cfg)))
   = List.length charinfos ->
   map placement (snd (build_atlas charinfos cfg))
   = snd (bin_pack_max_rect (map placement charinfos)
                            (tex_width (tex_dims cfg))
                            (tex_height (tex_dims cfg)) (spacing cfg))).
Proof.
  unfold build_atlas.
  destruct (bin_pack_max_rect _ _ _ _) as [ok rects]. cbn [snd].
  split; [apply store_placements_frame | apply store_placements_all].
Qed.





End Geometry.

(** ** What the search commits *)

Section Committed.
Variable p : nat -> Z -> bool * list event.
Variable cfg : settings.

Lemma search_final_state : forall fuel i s h evs,
  reachable p cfg i s ->
  auto_height_search fuel p i s = Some (h, evs) ->
  exists j s',
    reachable p cfg j s' /\ (i <= j)%nat /\
    range_first s' = range_second s' /\ range_first s' = h.
Proof.
  induction fuel as [|fuel IH]; intros i s h evs Hr;
    rewrite auto_height_search_unfold;
    destruct (Z.eqb_spec (range_first s) (range_second s)) as [E|E];
    try discriminate.
  - intros [= <- <-]. exists i, s. auto.
  - intros [= <- <-]. exists i, s. auto.
  - destruct (p i (range_second s)) as [ok ev] eqn:Hp.
    destruct (auto_height_search fuel p (S i) (search_step ok s))
      as [[h' evs']|] eqn:Hrec; [|discriminate].
    intros [= <- <-].
    pose proof (reachable_step p cfg i s Hr E) as Hr'.
    rewrite Hp in Hr'. cbn [fst] in Hr'.
    destruct (IH _ _ _ _ Hr' Hrec) as (j & s' & Hj & Hle & Heq & Hh).
    exists j, s'. repeat split; try assumption. lia.
Qed.

Lemma first_was_probed (i : nat) (s : search_state) :
  reachable p cfg i s ->
  range_first s = 0 \/ probed p cfg (range_first s) true.
Proof.
  induction 1 as [|i s Hr IH Hne]; [now left|].
  destruct (fst (p i (range_second s))) eqn:Hok; cbn [search_step].
  - right. exists i, s. cbn [range_first]. auto.
  - exact IH.
Qed.

(** X7.  Whatever the probes say, the height the search ends with is 0
    or a height at which a probe of this search succeeded. *)
Theorem committed_height_was_probed (fuel : nat) (h : Z)
  (evs : list event) :
  auto_height_search fuel p 0 (search_init cfg) = Some (h, evs) ->
  h = 0 \/ probed p cfg h true.
Proof.
  intros Hs.
  destruct (search_final_state _ _ _ _ _ (reachable_init p cfg) Hs)
    as (j & s' & Hr & _ & _ & <-).
  now apply (first_was_probed j).
Qed.

Hypothesis regime : search_regime p cfg.

Lemma highest_was_probed (i : nat) (s : search_state) :
  reachable p cfg i s ->
  highest s = tex_height (tex_dims cfg) + 1 \/ probed p cfg (highest s) false.
Proof.
  induction 1 as [|i s Hr IH Hne].
  - left. cbn. apply SizeT_wrap_small.
    destruct regime as (_ & HT & _). unfold SizeT.in_range.
    rewrite SizeT_modulus_value. lia.
  - pose proof (reachable_inv p cfg regime i s Hr) as Hinv.
    rewrite (search_step_exact p cfg regime i s Hinv Hne).
    destruct (fst (p i (range_second s))) eqn:Hok; cbn [highest].
    + exact IH.
    + destruct (Z.min_spec (highest s) (range_second s)) as [[_ E]|[_ E]];
        rewrite E; [exact IH|].
      right. exists i, s. auto.
Qed.

Lemma exit_below_highest (i : nat) (s : search_state) :
  reachable p cfg i s ->
  i = O \/ (range_first s = range_second s -> highest s = range_first s + 1).
Proof.
  induction 1 as [|i s Hr _ Hne]; [now left|]. right.
  pose proof (reachable_inv p cfg regime i s Hr) as Hinv.
  rewrite (search_step_exact p cfg regime i s Hinv Hne).
  destruct Hinv as (Hord & _ & _ & Hhi & Hdisj).
  destruct regime as (_ & HT & _).
  destruct (fst (p i (range_second s))) eqn:Hok;
    cbn [range_first range_second highest]; intros E.
  - lia.
  - assert (Hhalf : (range_second s - range_first s) / 2 = 0) by lia.
    apply Z.div_small_iff in Hhalf as [Hhalf|Hhalf]; [|lia|lia].
    destruct Hdisj as [Hlt|(H0 & Hh & _)]; lia.
Qed.

(** X8.  In the regime of the search (texture height below 2^63, and a
    start at or below the texture height or no success above it) the
    height [h] the search ends with is a local maximum: it is at most the
    texture height, and either it is the texture height, or a probe of
    this search failed at [h + 1], or the search started at the char
    height 0 and made no probe. *)
Theorem search_result_locally_maximal (fuel : nat) (h : Z)
  (evs : list event) :
  auto_height_search fuel p 0 (search_init cfg) = Some (h, evs) ->
  0 <= h <= tex_height (tex_dims cfg) /\
  (h = tex_height (tex_dims cfg) \/
   probed p cfg (h + 1) false \/
   (h = 0 /\ max_char_height cfg = 0 /\ evs = [])).
Proof.
  intros Hs.
  destruct (search_final_state _ _ _ _ _ (reachable_init p cfg) Hs)
    as (j & s' & Hr & _ & Heq & <-).
  pose proof (reachable_inv p cfg regime j s' Hr) as Hinv.
  split; [destruct Hinv as (Hord & _ & Hlow & _); lia|].
  destruct (exit_below_highest j s' Hr) as [->|Hexit].
  - right. right. inversion Hr; subst.
    cbn in Heq. cbn [search_init range_first].
    split; [reflexivity|]. split; [now symmetry|].
    rewrite auto_height_search_unfold in Hs. cbn in Hs.
    rewrite <- Heq in Hs. destruct fuel; cbn in Hs; now injection Hs.
  - specialize (Hexit Heq).
    destruct (highest_was_probed j s' Hr) as [Hh|Hp].
    + left. lia.
    + right. left. now rewrite <- Hexit.
Qed.

End Committed.

Section Committed_run.
Context {services : Services}.

Lemma probe_verdict font cfg h :
  fst (probe font cfg h)
  = fst (build_atlas
           (fst (fst (build_charset font (set_max_char_height cfg h) true)))
           (set_max_char_height cfg h)).
Proof.
  unfold probe.
  pose proof (build_charset_placements font (set_max_char_height cfg h)) as E.
  apply (build_atlas_verdict _ _ (set_max_char_height cfg h)) in E.
  rewrite <- E.
  destruct (build_charset font (set_max_char_height cfg h) false)
    as [[charinfos scaling] ev].
  cbn [fst]. destruct (build_atlas charinfos _). reflexivity.
Qed.

(** X9.  With automatic sizing on, the height [h] that [run] commits is
    announced in the trace, and the committed run does not fail where a
    probe succeeded: unless [h] is 0, its packing step succeeds, no
    failure is reported and (for a record set that is not empty) the
    three files are written.  In the regime of the search [h] is at most
    the texture height, and the height [h + 1] does not pack unless [h]
    is the texture height or the search started at the char height 0. *)
Theorem auto_height_commits_packing_height (fuel : nat)
  (font : FontHandle) (cfg : settings) (tr : list event) :
  auto_height cfg = true ->
  run fuel font cfg = Some tr ->
  exists h,
    In (UsingCharHeight h) tr /\
    (h = 0 \/
     (fst (build_atlas
             (fst (fst (build_charset font (set_max_char_height cfg h)
                                      true)))
             (set_max_char_height cfg h)) = true /\
      ~ In PackingFailed tr /\
      (read_shapes font cfg <> [] ->
       files_written tr
       = [(output_file_name cfg ++ "_desc.c")%string;
          (output_file_name cfg ++ "_img.png")%string;
          (output_file_name cfg ++ "_img.c")%string]))) /\
    (search_regime (fun _ => probe font cfg) cfg ->
     0 <= h <= tex_height (tex_dims cfg) /\
     (h = tex_height (tex_dims cfg) \/
      fst (probe font cfg (h + 1)) = false \/
      (h = 0 /\ max_char_height cfg = 0))).
Proof.
  intros Hauto Hrun. unfold run in Hrun. rewrite Hauto in Hrun.
  destruct (auto_height_search fuel (fun _ => probe font cfg) 0
                               (search_init cfg))
    as [[h evs]|] eqn:Hs; [|discriminate].
  injection Hrun as <-. exists h.
  destruct (search_final_state _ cfg _ _ _ _ _
              (reachable_init (fun _ => probe font cfg) cfg) Hs)
    as (j & s' & Hr & _ & Heq & Hh).
  split; [|split].
  - apply in_or_app. right. rewrite run_committed_trace. now left.
  - destruct (first_was_probed _ cfg j s' Hr) as [H0|Hp];
      rewrite Hh in *; [now left|].
    right. destruct Hp as (i & s & _ & _ & _ & Hok).
    rewrite probe_verdict in Hok.
    destruct (run_committed_files font (set_max_char_height cfg h))
      as [_ Hfiles].
    destruct (Hfiles Hok) as [Hnofail Hthree].
    destruct (search_writes_nothing _ _ _ _ _ _ _ Hs) as [Hnone Hsilent].
    split; [exact Hok|]. split.
    + intros Hin. apply in_app_or in Hin as [Hin|Hin]; tauto.
    + intros _. rewrite files_written_app, Hnone. exact Hthree.
  - intros Hreg.
    pose proof (reachable_inv _ cfg Hreg j s' Hr) as Hinv.
    split; [destruct Hinv as (Hord & _ & Hlow & _); lia|].
    destruct (exit_below_highest _ cfg Hreg j s' Hr) as [->|Hexit].
    + right. right. inversion Hr; subst. cbn in Heq.
      cbn [search_init range_first]. now split.
    + specialize (Hexit Heq).
      destruct (highest_was_probed _ cfg Hreg j s' Hr) as [Hhi|Hp].
      * left. lia.
      * right. left. destruct Hp as (i & s & _ & _ & _ & Hfail).
        rewrite Hexit, Hh in Hfail. exact Hfail.
Qed.

End Committed_run.

(** ** The description: extents, order, and the table of a run *)

Section Extents.
Context {services : Services}.

Lemma Qlt_bool_true (a b : Q) : Qlt_bool a b = true <-> (a < b)%Q.
Proof.
  unfold Qlt_bool. destruct (Qlt_le_dec a b) as [H|H]; split; try easy.
  intros Hlt. exfalso. apply (Qlt_irrefl a). eapply Qlt_le_trans; eassumption.
Qed.

Lemma Qlt_bool_false (a b : Q) : Qlt_bool a b = false <-> (b <= a)%Q.
Proof.
  unfold Qlt_bool. destruct (Qlt_le_dec a b) as [H|H]; split; try easy.
  intros Hle. exfalso. apply (Qlt_irrefl a). eapply Qlt_le_trans; eassumption.
Qed.

Lemma fold_min_spec {A : Type} (key : A -> Q) : forall (l : list A) (best : A),
  let m := fold_left
             (fun best c => if Qlt_bool (key c) (key best) then c else best)
             l best in
  (m = best \/ In m l) /\
  (key m <= key best)%Q /\
  (forall c, In c l -> (key m <= key c)%Q).
Proof.
  induction l as [|c l IH]; intros best; cbv zeta; cbn [fold_left].
  - split; [now left|]. split; [apply Qle_refl | intros c []].
  - destruct (IH (if Qlt_bool (key c) (key best) then c else best))
      as (Hin & Hle & Hall).
    destruct (Qlt_bool (key c) (key best)) eqn:E.
    + apply Qlt_bool_true in E. split; [|split].
      * right. destruct Hin as [->|Hin]; [now left | now right].
      * eapply Qle_trans; [exact Hle | now apply Qlt_le_weak].
      * intros c' [<-|Hc']; [exact Hle | now apply Hall].
    + apply Qlt_bool_false in E. split; [|split].
      * destruct Hin as [->|Hin]; [now left | right; now right].
      * exact Hle.
      * intros c' [<-|Hc']; [|now apply Hall].
        eapply Qle_trans; eassumption.
Qed.

Lemma fold_max_spec {A : Type} (key : A -> Q) : forall (l : list A) (best : A),
  let m := fold_left
             (fun best c => if Qlt_bool (key best) (key c) then c else best)
             l best in
  (m = best \/ In m l) /\
  (key best <= key m)%Q /\
  (forall c, In c l -> (key c <= key m)%Q).
Proof.
  induction l as [|c l IH]; intros best; cbv zeta; cbn [fold_left].
  - split; [now left|]. split; [apply Qle_refl | intros c []].
  - destruct (IH (if Qlt_bool (key best) (key c) then c else best))
      as (Hin & Hle & Hall).
    destruct (Qlt_bool (key best) (key c)) eqn:E.
    + apply Qlt_bool_true in E. split; [|split].
      * right. destruct Hin as [->|Hin]; [now left | now right].
      * eapply Qle_trans; [apply Qlt_le_weak; exact E | exact Hle].
      * intros c' [<-|Hc']; [exact Hle | now apply Hall].
    + apply Qlt_bool_false in E. split; [|split].
      * destruct Hin as [->|Hin]; [now left | right; now right].
      * exact Hle.
      * intros c' [<-|Hc']; [|now apply Hall].
        eapply Qle_trans; eassumption.
Qed.

Lemma description_of_extents charinfos cfg scaling d :
  description_of charinfos cfg scaling = Some d ->
  let sorted := sort_by_codepoint charinfos in
  info_smooth_pixels d = smoothpixels cfg /\
  info_min_y d
  = option_map (fun ch => y (bbox ch))
      (min_element (fun a b => Qlt_bool (y (bbox a)) (y (bbox b))) sorted) /\
  info_max_y d
  = option_map (fun ch => top (bbox ch))
      (max_element (fun a b => Qlt_bool (top (bbox a)) (top (bbox b)))
                   sorted).
Proof.
  unfold description_of, write_description.
  destruct (write_glyphs (use_spans cfg) 0 (sort_by_codepoint charinfos))
    as [glyphs last].
  cbn. intros [= <-]. cbn. repeat split.
Qed.

(** X10.  For a record set that is not empty, the two extents of the
    font information are attained and extreme: [min_y] is the lower edge
    of a record and no record reaches below it, [max_y] is the upper edge
    of a record and no record reaches above it. *)
Theorem description_extents (charinfos : list char_info) (cfg : settings)
  (scaling : Q) (d : description) :
  charinfos <> [] ->
  description_of charinfos cfg scaling = Some d ->
  exists lowest highest,
    In lowest charinfos /\ In highest charinfos /\
    info_min_y d = Some (y (bbox lowest)) /\
    info_max_y d = Some (top (bbox highest)) /\
    forall ch, In ch charinfos ->
      (y (bbox lowest) <= y (bbox ch))%Q /\
      (top (bbox ch) <= top (bbox highest))%Q.
Proof.
  intros Hne Hd.
  destruct (description_of_extents _ _ _ _ Hd) as (_ & Hmin & Hmax).
  cbv zeta in *.
  pose proof (sort_by_codepoint_perm charinfos) as Hp.
  assert (Hin : forall ch, In ch (sort_by_codepoint charinfos)
                           <-> In ch charinfos).
  { intros ch. split; apply Permutation_in; [exact Hp | now symmetry]. }
  destruct (sort_by_codepoint charinfos) as [|a l] eqn:E.
  - exfalso. apply Hne. apply Permutation_nil. now symmetry.
  - cbn [min_element max_element option_map] in Hmin, Hmax.
    destruct (fold_min_spec (fun ch => y (bbox ch)) l a)
      as (Hlin & Hlbest & Hlall).
    destruct (fold_max_spec (fun ch => top (bbox ch)) l a)
      as (Hhin & Hhbest & Hhall).
    cbv zeta in *.
    eexists. eexists.
    split; [|split; [|split; [exact Hmin|split; [exact Hmax|]]]].
    + apply Hin. destruct Hlin as [->|H]; [now left | now right].
    + apply Hin. destruct Hhin as [->|H]; [now left | now right].
    + intros ch Hch. apply Hin in Hch. destruct Hch as [<-|Hch].
      * split; assumption.
      * split; [now apply Hlall | now apply Hhall].
Qed.

(** X11.  [write_description] leaves the vector with the same records,
    in ascending order of codepoint, whatever the codepoints are; with
    spans, the table it writes holds the entry of every record of that
    vector, in that order, and no other entry. *)
Theorem write_description_sorts (charinfos : list char_info)
  (cfg : settings) (scaling : Q) :
  let sorted := fst (write_description charinfos cfg scaling) in
  Permutation sorted charinfos /\
  StronglySorted codepoint_le sorted /\
  (use_spans cfg = true ->
   exists d,
     description_of charinfos cfg scaling = Some d /\
     font_codepoint_infos d = map glyph_of sorted).
Proof.
  cbv zeta.
  assert (E : fst (write_description charinfos cfg scaling)
              = sort_by_codepoint charinfos).
  { unfold write_description.
    destruct (write_glyphs (use_spans cfg) 0 (sort_by_codepoint charinfos)).
    reflexivity. }
  rewrite E. split; [apply sort_by_codepoint_perm|].
  split; [apply sort_by_codepoint_sorted|].
  intros Hspans.
  destruct (description_of_total charinfos cfg scaling) as [d Hd].
  exists d. split; [exact Hd|].
  destruct (description_of_fields _ _ _ _ Hd) as (_ & Hg & _).
  cbv zeta in Hg. rewrite Hg, Hspans. apply write_glyphs_spans.
Qed.




End Extents.

(** ** The image: size and bytes *)



Lemma clamp_255 (n : Z) : clamp n 255 = Z.max 0 (Z.min n 255).
Proof.
  unfold clamp.
  destruct (Z.leb_spec 0 n); destruct (Z.leb_spec n 255); cbn [andb];
    destruct (Z.ltb_spec 0 n); lia.
Qed.

Lemma channel_byte_range (v : Q) : 0 <= channel_byte v <= 255.
Proof. unfold channel_byte. rewrite clamp_255. lia. Qed.


Lemma upto_length (n : Z) : List.length (upto n) = Z.to_nat n.
Proof. unfold upto. now rewrite length_map, length_seq. Qed.

Lemma triples_length {A B : Type} (f1 f2 f3 : A -> B) : forall l : list A,
  List.length (flat_map (fun a => [f1 a; f2 a; f3 a]) l)
  = (List.length l * 3)%nat.
Proof.
  induction l as [|a l IH]; [reflexivity|].
  cbn [flat_map app List.length]. rewrite IH. lia.
Qed.

Lemma concat_rows_length {A : Type} (n : nat) : forall rows : list (list A),
  Forall (fun row => List.length row = n) rows ->
  List.length (List.concat rows) = (List.length rows * n)%nat.
Proof.
  induction rows as [|row rows IH]; intros H; [reflexivity|].
  apply Forall_cons_iff in H as [Hrow H].
  cbn [List.concat List.length]. rewrite length_app, Hrow, (IH H). lia.
Qed.

(** X14.  The image that [write_image] writes has the size its header
    declares: the header carries the texture size, the border and the
    spacing of the configuration; there is one row per texel row, every
    row holds width times channels bytes (3 channels with msdf, else 1),
    in all as many values as the size width x height (x 3) that the
    array [pixels] is declared with; and every value is a byte. *)
Theorem image_has_declared_size {services : Services}
  (charinfos : list char_info) (cfg : settings) (file : string)
  (img : font_image) :
  In (WriteImage file img) (write_image charinfos cfg) ->
  file = (output_file_name cfg ++ "_img.c")%string /\
  image_width img = tex_width (tex_dims cfg) /\
  image_height img = tex_height (tex_dims cfg) /\
  char_border img = smoothpixels cfg /\
  image_spacing img = spacing cfg /\
  channels img = (match mode cfg with msdf => 3 | _ => 1 end) /\
  List.length (pixels img) = Z.to_nat (image_height img) /\
  Forall (fun row =>
            List.length row
            = (Z.to_nat (image_width img) * Z.to_nat (channels img))%nat)
         (pixels img) /\
  List.length (List.concat (pixels img))
  = (Z.to_nat (image_height img)
     * (Z.to_nat (image_width img) * Z.to_nat (channels img)))%nat /\
  Forall (Forall (fun byte => 0 <= byte <= 255)) (pixels img).
Proof.
  intros Hin. unfold write_image in Hin.
  destruct Hin as [Hin|[Hin|[]]]; [discriminate|].
  injection Hin as <- <-.
  cbn [image_width image_height char_border image_spacing channels pixels].
  repeat (split; [reflexivity|]).
  set (bm := compose charinfos cfg). clearbody bm.
  assert (Hrows : List.length (pixel_rows (mode cfg) bm
                                 (tex_width (tex_dims cfg))
                                 (tex_height (tex_dims cfg)))
                  = Z.to_nat (tex_height (tex_dims cfg))).
  { unfold pixel_rows. destruct (mode cfg);
      now rewrite length_map, upto_length. }
  assert (Hrow : Forall (fun row =>
                   List.length row
                   = (Z.to_nat (tex_width (tex_dims cfg))
                      * Z.to_nat (match mode cfg with msdf => 3 | _ => 1 end))%nat)
                   (pixel_rows (mode cfg) bm (tex_width (tex_dims cfg))
                               (tex_height (tex_dims cfg)))).
  { unfold pixel_rows. apply Forall_forall. intros row Hr.
    destruct (mode cfg); apply in_map_iff in Hr as (yy & <- & _).
    - rewrite triples_length, upto_length. reflexivity.
    - rewrite length_map, upto_length. cbn. lia.
    - rewrite length_map, upto_length. cbn. lia. }
  split; [exact Hrows|]. split; [exact Hrow|]. split.
  - rewrite (concat_rows_length _ _ Hrow), Hrows. reflexivity.
  - unfold pixel_rows. apply Forall_forall. intros row Hr.
    apply Forall_forall. intros byte Hb.
    destruct (mode cfg); apply in_map_iff in Hr as (yy & <- & _).
    + apply in_flat_map in Hb as (xx & _ & Hb).
      destruct Hb as [<-|[<-|[<-|[]]]]; apply channel_byte_range.
    + apply in_map_iff in Hb as (xx & <- & _). apply channel_byte_range.
    + apply in_map_iff in Hb as (xx & <- & _). apply channel_byte_range.
Qed.

(** ** Main and the options *)

(** X15.  [main] writes no file unless the options parse without
    [--help], FreeType initialises, the font opens and the packing step
    of the committed run succeeds: a trace of [main] that writes a file
    is the trace of such a [run] and reports no packing failure. *)
Theorem main_writes_only_after_packing {services : Services} (fuel : nat)
  (p : parsed) (code : Z) (tr : list event) :
  main fuel p = Some (code, tr) ->
  files_written tr <> [] ->
  exists cfg ft font,
    p = po_values None cfg /\
    initializeFreetype = Some ft /\
    loadFont ft (font_file_name cfg) = Some font /\
    run fuel font cfg = Some tr /\
    ~ In PackingFailed tr.
Proof.
  unfold main. intros Hmain Hfiles.
  destruct p as [what|[text|] cfg]; cbn [parse_options] in Hmain.
  - injection Hmain as _ <-. now contradiction Hfiles.
  - injection Hmain as _ <-. now contradiction Hfiles.
  - destruct initializeFreetype as [ft|] eqn:Hft;
      [|injection Hmain as _ <-; now contradiction Hfiles].
    destruct (loadFont ft (font_file_name cfg)) as [font|] eqn:Hfont;
      [|injection Hmain as _ <-; now contradiction Hfiles].
    destruct (run fuel font cfg) as [ev|] eqn:Hrun; [|discriminate].
    injection Hmain as _ <-. cbn [app] in *.
    exists cfg, ft, font.
    split; [reflexivity|]. split; [reflexivity|].
    split; [exact Hfont|]. split; [exact Hrun|].
    destruct (run_trace fuel font cfg ev Hrun)
      as (h & evs & -> & Hnone & Hsilent & _).
    rewrite files_written_app, Hnone in Hfiles. cbn [app] in Hfiles.
    destruct (run_committed_files font (set_max_char_height cfg h))
      as [Hfail Hok].
    destruct (fst (build_atlas _ (set_max_char_height cfg h))).
    + destruct (Hok eq_refl) as [Hnofail _].
      intros Hin. apply in_app_or in Hin as [Hin|Hin]; tauto.
    + destruct (Hfail eq_refl) as [_ Hnothing]. congruence.
Qed.

(** X16.  The two stream operators of [font_mode] are inverse: reading
    the text written for a mode gives that mode, whatever the mode was
    before; and a token either is the text of the mode read or leaves
    the mode as it was (a token that names no mode is not refused). *)
Theorem font_mode_round_trip :
  (forall mode before, read_font_mode (write_font_mode mode) before = mode) /\
  (forall token before,
     read_font_mode token before = before \/
     token = write_font_mode (read_font_mode token before)).
Proof.
  split.
  - intros [] before; reflexivity.
  - intros token before. unfold read_font_mode.
    destruct (String.eqb_spec token "msdf") as [->|_]; [now right|].
    destruct (String.eqb_spec token "sdf") as [->|_]; [now right|].
    destruct (String.eqb_spec token "psdf") as [->|_]; [now right|].
    now left.
Qed.

(** ** The stream operators *)

Lemma digit_cases (d : Z) :
  0 <= d < 10 ->
  d = 0 \/ d = 1 \/ d = 2 \/ d = 3 \/ d = 4 \/ d = 5 \/ d = 6 \/ d = 7 \/
  d = 8 \/ d = 9.
Proof. lia. Qed.

Lemma digit_char_facts (d : Z) :
  0 <= d < 10 ->
  digit_of (digit_char d) = Some d /\ isspace (digit_char d) = false /\
  Ascii.eqb (digit_char d) "-" = false /\
  Ascii.eqb (digit_char d) "+" = false.
Proof.
  intros H. destruct (digit_cases d H) as [->|[->|[->|[->|[->|[->|[->|[->|[->| ->]]]]]]]]];
    repeat split; reflexivity.
Qed.

(** The digits that [write_digits] puts before [tail]: they are digits,
    there is at least one, and their value in base 10 is [n]. *)
Lemma write_digits_value : forall count n tail,
  0 <= n < 10 ^ Z.of_nat count -> (0 < count)%nat ->
  exists d ds,
    write_digits count n tail = (digit_char d :: ds) ++ tail /\
    0 <= d < 10 /\
    forall rest any,
      no_digit_ahead rest ->
      read_digits ((digit_char d :: ds) ++ rest) 0 any = (n, true, rest).
Proof.
  assert (Hread : forall ds rest acc any,
            Forall (fun c => exists d, 0 <= d < 10 /\ c = digit_char d) ds ->
            read_digits (ds ++ rest) acc any
            = read_digits rest
                (fold_left (fun a c => a * 10
                                       + match digit_of c with
                                         | Some d => d
                                         | None => 0
                                         end) ds acc)
                (any || negb (at_end ds))).
  { induction ds as [|c ds IH]; intros rest acc any Hall.
    - cbn. now rewrite orb_false_r.
    - apply Forall_cons_iff in Hall as [(d & Hd & ->) Hall].
      destruct (digit_char_facts d Hd) as (Hdig & _).
      cbn [app read_digits fold_left at_end negb]. rewrite Hdig.
      rewrite (IH rest _ true Hall). now rewrite orb_true_r. }
  assert (Hstop : forall rest acc any,
            no_digit_ahead rest -> read_digits rest acc any = (acc, any, rest)).
  { intros [|c rest] acc any Hno; [reflexivity|].
    cbn in Hno. cbn [read_digits]. now rewrite Hno. }
  assert (Hgen : forall count n tail,
            0 <= n < 10 ^ Z.of_nat count -> (0 < count)%nat ->
            exists d ds,
              write_digits count n tail = (digit_char d :: ds) ++ tail /\
              0 <= d < 10 /\
              Forall (fun c => exists d, 0 <= d < 10 /\ c = digit_char d) ds /\
              fold_left (fun a c => a * 10
                                    + match digit_of c with
                                      | Some d => d
                                      | None => 0
                                      end) (digit_char d :: ds) 0 = n).
  { induction count as [|count IH]; intros n tail Hn Hpos; [lia|].
    cbn [write_digits].
    destruct (Z.ltb_spec n 10) as [Hsmall|Hbig].
    - exists n, []. rewrite Z.mod_small by lia.
      split; [reflexivity|]. split; [lia|]. split; [constructor|].
      cbn [fold_left]. destruct (digit_char_facts n) as (-> & _); lia.
    - assert (Hcount : (0 < count)%nat).
      { destruct count; [|lia]. cbn in Hn. lia. }
      assert (Hdiv : 0 <= n / 10 < 10 ^ Z.of_nat count).
      { split; [apply Z.div_pos; lia|].
        apply Z.div_lt_upper_bound; [lia|].
        rewrite Nat2Z.inj_succ, Z.pow_succ_r in Hn by lia. lia. }
      destruct (IH (n / 10) (digit_char (n mod 10) :: tail) Hdiv Hcount)
        as (d & ds & Hw & Hd & Hall & Hval).
      assert (Hm : 0 <= n mod 10 < 10) by (apply Z.mod_pos_bound; lia).
      exists d, (ds ++ [digit_char (n mod 10)]).
      split; [rewrite Hw; cbn [app]; now rewrite <- app_assoc|].
      split; [exact Hd|]. split.
      + apply Forall_app. split; [exact Hall|].
        constructor; [|constructor]. now exists (n mod 10).
      + change (digit_char d :: ds ++ [digit_char (n mod 10)])
          with ((digit_char d :: ds) ++ [digit_char (n mod 10)]).
        rewrite fold_left_app, Hval. cbn [fold_left].
        destruct (digit_char_facts (n mod 10) Hm) as (-> & _).
        pose proof (Z.div_mod n 10). lia. }
  intros count n tail Hn Hpos.
  destruct (Hgen count n tail Hn Hpos) as (d & ds & Hw & Hd & Hall & Hval).
  exists d, ds. split; [exact Hw|]. split; [exact Hd|].
  intros rest any Hno.
  rewrite Hread.
  - rewrite Hval. rewrite Hstop by exact Hno. cbn [at_end negb].
    now rewrite orb_true_r.
  - constructor; [now exists d | exact Hall].
Qed.

(** Reading back a written [size_t]: the value, and the stream left at
    what followed the digits. *)
Lemma read_written_size_t (n : Z) (rest : list ascii) (before : Z) :
  size_t_value n -> no_digit_ahead rest ->
  read_size_t (istream_of (write_size_t n ++ rest)) before
  = ({| unread := rest; eofbit := at_end rest; failbit := false |}, n).
Proof.
  intros Hn Hno. unfold size_t_value, SizeT.modulus in Hn.
  destruct (write_digits_value 20 n [] ltac:(cbn; lia) ltac:(lia))
    as (d & ds & Hw & Hd & Hread).
  unfold write_size_t. rewrite Hw, app_nil_r.
  destruct (digit_char_facts d Hd) as (_ & Hsp & Hminus & Hplus).
  unfold read_size_t, istream_of.
  cbn [good eofbit failbit negb andb unread app skip_space].
  rewrite Hsp, Hminus, Hplus. cbn [orb].
  change (digit_char d :: ds ++ rest) with ((digit_char d :: ds) ++ rest).
  rewrite (Hread rest false Hno). cbn [negb].
  destruct (Z.leb_spec SizeT.modulus n) as [Hbig|_];
    [unfold SizeT.modulus in Hbig; lia|].
  reflexivity.
Qed.

(** X17.  The two stream operators of [codepoint_range] are inverse on
    [size_t] values: reading the text written for a range gives that
    range, whatever the range held before, consumes the whole text and
    does not fail the stream. *)
Theorem codepoint_range_round_trip (rg before : codepoint_range) :
  size_t_value (range_begin rg) -> size_t_value (range_end rg) ->
  read_codepoint_range (istream_of (write_codepoint_range rg)) before
  = ({| unread := []; eofbit := true; failbit := false |}, rg).
Proof.
  intros Hb He. unfold read_codepoint_range, write_codepoint_range.
  rewrite (read_written_size_t _ _ _ Hb) by reflexivity.
  cbn [at_end get good eofbit failbit negb andb unread is_char].
  change (Ascii.eqb "-" "-") with true. cbn [negb range_end range_begin].
  pose proof (read_written_size_t (range_end rg) [] (range_end before) He I)
    as Hread.
  rewrite app_nil_r in Hread. unfold istream_of in Hread. rewrite Hread.
  destruct rg; reflexivity.
Qed.

(** X18.  The two stream operators of [texture_dimensions] are inverse
    on [size_t] values: reading the text written for a size gives that
    size, consumes the whole text and does not fail the stream. *)
Theorem texture_dimensions_round_trip (dims before : texture_dimensions) :
  size_t_value (tex_width dims) -> size_t_value (tex_height dims) ->
  read_texture_dimensions (istream_of (write_texture_dimensions dims)) before
  = ({| unread := []; eofbit := true; failbit := false |}, dims).
Proof.
  intros Hw Hh. unfold read_texture_dimensions, write_texture_dimensions.
  rewrite (read_written_size_t _ _ _ Hw) by reflexivity.
  cbn [at_end get good eofbit failbit negb andb unread is_char].
  change (Ascii.eqb "x" "x") with true. cbn [negb tex_width tex_height].
  pose proof (read_written_size_t (tex_height dims) [] (tex_height before)
                                  Hh I) as Hread.
  rewrite app_nil_r in Hread. unfold istream_of in Hread. rewrite Hread.
  destruct dims; reflexivity.
Qed.

(** X19.  A range without its separator: after the text of one
    [size_t] that no '-' follows, the extraction sets [begin], leaves
    [end] as it was, and fails the stream exactly when the text ends
    there; a following character other than '-' (and no digit) is
    consumed and the stream is not failed. *)
Theorem codepoint_range_without_separator (n : Z) (rest : list ascii)
  (before : codepoint_range) :
  size_t_value n -> no_digit_ahead rest ->
  hd_error rest <> Some "-"%char ->
  let result := read_codepoint_range (istream_of (write_size_t n ++ rest))
                                     before in
  snd result = {| range_begin := n; range_end := range_end before |} /\
  unread (fst result) = tl rest /\
  failbit (fst result) = at_end rest.
Proof.
  intros Hn Hno Hsep. cbv zeta. unfold read_codepoint_range.
  rewrite (read_written_size_t _ _ _ Hn Hno).
  destruct rest as [|c rest].
  - cbn. repeat split.
  - cbn [at_end get good eofbit failbit negb andb unread is_char].
    destruct (Ascii.eqb_spec c "-") as [->|_]; [now contradiction Hsep|].
    cbn. repeat split.
Qed.

Lemma write_digits_tail : forall count n tail,
  write_digits count n tail = write_digits count n [] ++ tail.
Proof.
  induction count as [|count IH]; intros n tail; [reflexivity|].
  cbn [write_digits]. destruct (n <? 10); [reflexivity|].
  rewrite (IH _ (_ :: tail)), (IH _ [_]), <- app_assoc. reflexivity.
Qed.

Lemma write_digits_count : forall count count' n tail,
  (0 < count)%nat -> (0 < count')%nat ->
  0 <= n < 10 ^ Z.of_nat count -> 0 <= n < 10 ^ Z.of_nat count' ->
  write_digits count n tail = write_digits count' n tail.
Proof.
  induction count as [|count IH]; intros count' n tail Hc Hc' Hn Hn'; [lia|].
  destruct count' as [|count']; [lia|].
  cbn [write_digits]. destruct (Z.ltb_spec n 10) as [_|Hbig]; [reflexivity|].
  assert ((0 < count)%nat) by (destruct count; [cbn in Hn|]; lia).
  assert ((0 < count')%nat) by (destruct count'; [cbn in Hn'|]; lia).
  rewrite Nat2Z.inj_succ, Z.pow_succ_r in Hn, Hn' by lia.
  apply IH; try assumption; (split; [apply Z.div_pos; lia|]);
    apply Z.div_lt_upper_bound; lia.
Qed.

Lemma write_size_t_append (b t : Z) :
  1 <= b -> 0 <= t < 10 -> size_t_value (10 * b + t) ->
  write_size_t (10 * b + t) = write_size_t b ++ [digit_char t].
Proof.
  intros Hb Ht Hn. unfold size_t_value, SizeT.modulus in Hn.
  unfold write_size_t.
  change (write_digits 20 (10 * b + t) [])
    with (let tail := [digit_char ((10 * b + t) mod 10)] in
          if 10 * b + t <? 10 then tail
          else write_digits 19 ((10 * b + t) / 10) tail).
  cbv zeta. destruct (Z.ltb_spec (10 * b + t) 10) as [Hsmall|_]; [lia|].
  replace ((10 * b + t) / 10) with b
    by (apply Z.div_unique with t; lia).
  replace ((10 * b + t) mod 10) with t
    by (apply Z.mod_unique with b; lia).
  rewrite write_digits_tail. f_equal.
  apply write_digits_count; cbn; lia.
Qed.

Lemma write_digits_S (count : nat) (n : Z) (tail : list ascii) :
  write_digits (S count) n tail
  = if n <? 10 then digit_char (n mod 10) :: tail
    else write_digits count (n / 10) (digit_char (n mod 10) :: tail).
Proof. reflexivity. Qed.

Lemma write_digits_prepend (t : Z) : forall count c tail,
  1 <= t < 10 -> 0 <= c < 10 ^ Z.of_nat count -> (0 < count)%nat ->
  write_digits (S count)
               (t * 10 ^ Z.of_nat (List.length (write_digits count c [])) + c)
               tail
  = digit_char t :: write_digits count c tail.
Proof.
  induction count as [|count IH]; intros c tail Ht Hc Hpos; [lia|].
  rewrite (write_digits_S (S count)), (write_digits_S count c tail),
    (write_digits_S count c []).
  destruct (Z.ltb_spec c 10) as [Hsmall|Hbig].
  - cbn [List.length]. change (10 ^ Z.of_nat 1) with 10.
    destruct (Z.ltb_spec (t * 10 + c) 10) as [Hlt|_]; [lia|].
    replace ((t * 10 + c) / 10) with t
      by (apply Z.div_unique with c; lia).
    replace ((t * 10 + c) mod 10) with c
      by (apply Z.mod_unique with t; lia).
    rewrite write_digits_S.
    destruct (Z.ltb_spec t 10) as [_|Hge]; [|lia].
    rewrite (Z.mod_small t), (Z.mod_small c) by lia. reflexivity.
  - assert (Hcount : (0 < count)%nat).
    { destruct count; [|lia]. cbn in Hc. lia. }
    assert (Hdiv : 0 <= c / 10 < 10 ^ Z.of_nat count).
    { split; [apply Z.div_pos; lia|].
      apply Z.div_lt_upper_bound; [lia|].
      rewrite Nat2Z.inj_succ, Z.pow_succ_r in Hc by lia. lia. }
    rewrite (write_digits_tail count (c / 10) [_]), length_app.
    cbn [List.length].
    pose proof (IH (c / 10) (digit_char (c mod 10) :: tail) Ht Hdiv Hcount)
      as Hrec.
    set (k := List.length (write_digits count (c / 10) [])) in *.
    replace (Z.of_nat (k + 1)) with (Z.succ (Z.of_nat k)) by lia.
    rewrite Z.pow_succ_r by lia.
    assert (Hpow : 0 < 10 ^ Z.of_nat k) by (apply Z.pow_pos_nonneg; lia).
    pose proof (Z.div_mod c 10 ltac:(lia)) as Hdm.
    assert (Hm : 0 <= c mod 10 < 10) by (apply Z.mod_pos_bound; lia).
    destruct (Z.ltb_spec (t * (10 * 10 ^ Z.of_nat k) + c) 10) as [Hlt|_];
      [nia|].
    replace ((t * (10 * 10 ^ Z.of_nat k) + c) / 10)
      with (t * 10 ^ Z.of_nat k + c / 10)
      by (apply Z.div_unique with (c mod 10); lia).
    replace ((t * (10 * 10 ^ Z.of_nat k) + c) mod 10) with (c mod 10)
      by (apply Z.mod_unique with (t * 10 ^ Z.of_nat k + c / 10); lia).
    exact Hrec.
Qed.

Lemma write_size_t_prepend (t c : Z) :
  1 <= t < 10 -> 0 <= c ->
  size_t_value (t * 10 ^ Z.of_nat (List.length (write_size_t c)) + c) ->
  write_size_t (t * 10 ^ Z.of_nat (List.length (write_size_t c)) + c)
  = digit_char t :: write_size_t c.
Proof.
  intros Ht Hc Hn. unfold size_t_value, SizeT.modulus in Hn.
  unfold write_size_t in *.
  set (k := List.length (write_digits 20 c [])) in *.
  assert (Hpow : 0 < 10 ^ Z.of_nat k) by (apply Z.pow_pos_nonneg; lia).
  change (2 ^ 64) with 18446744073709551616 in Hn.
  assert (Hc20 : 0 <= c < 10 ^ Z.of_nat 20).
  { change (10 ^ Z.of_nat 20) with 100000000000000000000. nia. }
  rewrite <- (write_digits_prepend t 20 c [] Ht Hc20 ltac:(lia)).
  fold k. apply write_digits_count; [lia | lia | | ].
  - change (10 ^ Z.of_nat 20) with 100000000000000000000. lia.
  - change (10 ^ Z.of_nat 21) with 1000000000000000000000. lia.
Qed.

(** X20.  The text written for a list of ranges does not tell the
    ranges apart: they follow one another without a separator, so the
    last digit of an end and the first digit of the next begin can change
    sides without a change of the text. *)
Theorem codepoint_ranges_text_ambiguous (a b c d t : Z) :
  1 <= b -> 1 <= t < 10 -> 0 <= c ->
  size_t_value (10 * b + t) ->
  size_t_value (t * 10 ^ Z.of_nat (List.length (write_size_t c)) + c) ->
  let shifted := t * 10 ^ Z.of_nat (List.length (write_size_t c)) + c in
  let one := [ {| range_begin := a; range_end := 10 * b + t |};
               {| range_begin := c; range_end := d |} ] in
  let other := [ {| range_begin := a; range_end := b |};
                 {| range_begin := shifted; range_end := d |} ] in
  one <> other /\
  write_codepoint_ranges one = write_codepoint_ranges other.
Proof.
  intros Hb Ht Hc Hn Hs. cbv zeta. split.
  - intros Heq. injection Heq. intros. lia.
  - unfold write_codepoint_ranges, write_codepoint_range.
    cbn [flat_map range_begin range_end].
    rewrite (write_size_t_append b t Hb ltac:(lia) Hn).
    rewrite (write_size_t_prepend t c Ht Hc Hs).
    rewrite !app_nil_r. f_equal.
    repeat rewrite <- app_assoc. cbn [app].
    repeat rewrite <- app_assoc. reflexivity.
Qed.

(** ** The further properties on the sample font *)

Lemma read_shape_drops_empty_outline_witness :
  @loadGlyph Samples.toy Samples.abc 32 = Some (None, 5%Q) /\
  @Shape_bounds Samples.toy None sentinel_extrema = sentinel_extrema /\
  (width (@bounds Samples.toy None) == - (5500000 # 1))%Q /\
  @read_shape Samples.toy Samples.abc 32 = [].
Proof.
  split; [reflexivity|]. split; [reflexivity|].
  exact (@read_shape_drops_empty_outline Samples.toy Samples.abc 32 None 5%Q
           eq_refl eq_refl).
Defined.

Lemma read_shapes_distinct_witness :
  let cfg :=
    Samples.sample_settings
      [Samples.range_ABC; {| range_begin := 32; range_end := 33 |}]
      64 32 false false sdf in
  ranges_disjoint (codepoint_ranges cfg) /\
  ranges_of_int (codepoint_ranges cfg) /\
  @distinct_codepoints Samples.toy (@read_shapes Samples.toy Samples.abc cfg).
Proof.
  intros cfg.
  assert (Hd : ranges_disjoint (codepoint_ranges cfg)).
  { apply FOP_cons; [|apply FOP_cons; [constructor | apply FOP_nil]].
    constructor; [|constructor].
    intros i. unfold in_codepoint_range. cbn. lia. }
  assert (Hi : ranges_of_int (codepoint_ranges cfg)).
  { constructor; [|constructor; [|constructor]];
      unfold Int.max_int; cbn; lia. }
  split; [exact Hd|]. split; [exact Hi|].
  exact (@read_shapes_distinct Samples.toy Samples.abc cfg Hd Hi).
Defined.


Lemma committed_height_was_probed_witness :
  let cfg := Samples.sample_settings [Samples.range_ABC] 64 10 true false sdf in
  let p := fun _ : nat => @probe Samples.toy Samples.abc cfg in
  exists evs,
    auto_height_search 7 p 0 (search_init cfg) = Some (24, evs) /\
    (24 = 0 \/ probed p cfg 24 true).
Proof.
  intros cfg p.
  assert (Hs : exists evs,
             auto_height_search 7 p 0 (search_init cfg) = Some (24, evs))
    by (vm_compute; eexists; reflexivity).
  destruct Hs as [evs Hs]. exists evs. split; [exact Hs|].
  exact (committed_height_was_probed p cfg 7 24 evs Hs).
Defined.

Lemma search_result_locally_maximal_witness :
  let cfg := Samples.sample_settings [Samples.range_ABC] 64 10 true false sdf in
  let p := fun _ : nat => @probe Samples.toy Samples.abc cfg in
  search_regime p cfg /\
  exists evs,
    auto_height_search 7 p 0 (search_init cfg) = Some (24, evs) /\
    0 <= 24 <= tex_height (tex_dims cfg) /\
    (24 = tex_height (tex_dims cfg) \/
     probed p cfg (24 + 1) false \/
     (24 = 0 /\ max_char_height cfg = 0 /\ evs = [])).
Proof.
  intros cfg p.
  assert (Hreg : search_regime p cfg).
  { unfold search_regime, SizeT.in_range. cbn.
    split; [lia | split; [lia | left; lia]]. }
  assert (Hs : exists evs,
             auto_height_search 7 p 0 (search_init cfg) = Some (24, evs))
    by (vm_compute; eexists; reflexivity).
  split; [exact Hreg|].
  destruct Hs as [evs Hs]. exists evs. split; [exact Hs|].
  exact (search_result_locally_maximal p cfg Hreg 7 24 evs Hs).
Defined.

Lemma auto_height_commits_packing_height_witness :
  let cfg := Samples.sample_settings [Samples.range_ABC] 64 10 true false sdf in
  let tr0 := @run_committed Samples.toy Samples.abc
               (set_max_char_height cfg 24) in
  exists tr,
    auto_height cfg = true /\
    @run Samples.toy 7 Samples.abc cfg = Some tr /\
    files_written tr = files_written tr0 /\
    exists h,
      In (UsingCharHeight h) tr /\
      (h = 0 \/
       (fst (@build_atlas Samples.toy
               (fst (fst (@build_charset Samples.toy Samples.abc
                            (set_max_char_height cfg h) true)))
               (set_max_char_height cfg h)) = true /\
        ~ In PackingFailed tr /\
        (@read_shapes Samples.toy Samples.abc cfg <> [] ->
         files_written tr
         = [(output_file_name cfg ++ "_desc.c")%string;
            (output_file_name cfg ++ "_img.png")%string;
            (output_file_name cfg ++ "_img.c")%string]))) /\
      (search_regime (fun _ => @probe Samples.toy Samples.abc cfg) cfg ->
       0 <= h <= tex_height (tex_dims cfg) /\
       (h = tex_height (tex_dims cfg) \/
        fst (@probe Samples.toy Samples.abc cfg (h + 1)) = false \/
        (h = 0 /\ max_char_height cfg = 0))).
Proof.
  intros cfg tr0.
  destruct (@run Samples.toy 7 Samples.abc cfg) as [tr|] eqn:Hrun;
    [|vm_compute in Hrun; discriminate].
  exists tr. split; [reflexivity|]. split; [reflexivity|].
  split.
  - assert (Hsame : option_map files_written
                      (@run Samples.toy 7 Samples.abc cfg)
                    = Some (files_written tr0)) by (vm_compute; reflexivity).
    rewrite Hrun in Hsame. now injection Hsame.
  - exact (@auto_height_commits_packing_height Samples.toy 7 Samples.abc cfg
             tr eq_refl Hrun).
Defined.

Lemma description_extents_witness :
  let cfg := Samples.sample_settings [Samples.range_ABC] 64 32 false false sdf in
  let charinfos := @read_shapes Samples.toy Samples.abc cfg in
  exists d,
    charinfos <> [] /\
    @description_of Samples.toy charinfos cfg 1 = Some d /\
    exists lowest highest,
      In lowest charinfos /\ In highest charinfos /\
      info_min_y d = Some (y (bbox lowest)) /\
      info_max_y d = Some (top (bbox highest)) /\
      forall ch, In ch charinfos ->
        (y (bbox lowest) <= y (bbox ch))%Q /\
        (top (bbox ch) <= top (bbox highest))%Q.
Proof.
  intros cfg charinfos.
  destruct (@description_of_total Samples.toy charinfos cfg 1) as [d Hdesc].
  exists d.
  assert (Hne : charinfos <> []) by (vm_compute; discriminate).
  split; [exact Hne|]. split; [exact Hdesc|].
  exact (@description_extents Samples.toy charinfos cfg 1 d Hne Hdesc).
Defined.



Lemma image_has_declared_size_witness :
  let cfg := Samples.sample_settings [Samples.range_ABC] 64 10 false false msdf in
  let charinfos :=
    snd (@build_atlas Samples.toy
           (fst (fst (@build_charset Samples.toy Samples.abc cfg true))) cfg) in
  let img :=
    {| image_width := 64; image_height := 64; char_border := 2;
       image_spacing := 2; channels := 3;
       pixels := pixel_rows msdf (@compose Samples.toy charinfos cfg) 64 64 |} in
  In (WriteImage "bitmap_font_img.c" img)
     (@write_image Samples.toy charinfos cfg) /\
  List.length (pixels img) = Z.to_nat (image_height img) /\
  Forall (fun row =>
            List.length row
            = (Z.to_nat (image_width img) * Z.to_nat (channels img))%nat)
         (pixels img) /\
  List.length (List.concat (pixels img))
  = (Z.to_nat (image_height img)
     * (Z.to_nat (image_width img) * Z.to_nat (channels img)))%nat /\
  Forall (Forall (fun byte => 0 <= byte <= 255)) (pixels img).
Proof.
  intros cfg charinfos img.
  assert (Hin : In (WriteImage "bitmap_font_img.c" img)
                   (@write_image Samples.toy charinfos cfg)).
  { right. left. reflexivity. }
  split; [exact Hin|].
  destruct (@image_has_declared_size Samples.toy charinfos cfg
              "bitmap_font_img.c" img Hin)
    as (_ & _ & _ & _ & _ & _ & H).
  exact H.
Defined.

Lemma main_writes_only_after_packing_witness :
  let cfg := Samples.sample_settings [Samples.range_ABC] 64 10 false false sdf in
  let tr := @run_committed Samples.toy Samples.abc cfg in
  @main Samples.toy 0 (po_values None cfg) = Some (0, tr) /\
  files_written tr <> [] /\
  exists cfg' ft font,
    po_values None cfg = po_values None cfg' /\
    @initializeFreetype Samples.toy = Some ft /\
    @loadFont Samples.toy ft (font_file_name cfg') = Some font /\
    @run Samples.toy 0 font cfg' = Some tr /\
    ~ In PackingFailed tr.
Proof.
  intros cfg tr.
  assert (Hmain : @main Samples.toy 0 (po_values None cfg) = Some (0, tr))
    by reflexivity.
  assert (Hfiles : files_written tr <> []) by (vm_compute; discriminate).
  split; [exact Hmain|]. split; [exact Hfiles|].
  exact (@main_writes_only_after_packing Samples.toy 0 (po_values None cfg)
           0 tr Hmain Hfiles).
Defined.

Lemma codepoint_range_round_trip_witness :
  let rg := {| range_begin := 65; range_end := 68 |} in
  let before := {| range_begin := 0; range_end := 65536 |} in
  size_t_value (range_begin rg) /\ size_t_value (range_end rg) /\
  write_codepoint_range rg = list_ascii_of_string "65-68" /\
  read_codepoint_range (istream_of (write_codepoint_range rg)) before
  = ({| unread := []; eofbit := true; failbit := false |}, rg).
Proof.
  intros rg before.
  assert (Hb : size_t_value (range_begin rg))
    by (unfold size_t_value, SizeT.modulus; cbn; lia).
  assert (He : size_t_value (range_end rg))
    by (unfold size_t_value, SizeT.modulus; cbn; lia).
  split; [exact Hb|]. split; [exact He|]. split; [reflexivity|].
  exact (codepoint_range_round_trip rg before Hb He).
Defined.

Lemma texture_dimensions_round_trip_witness :
  let dims := {| tex_width := 2048; tex_height := 1024 |} in
  let before := {| tex_width := 0; tex_height := 0 |} in
  size_t_value (tex_width dims) /\ size_t_value (tex_height dims) /\
  write_texture_dimensions dims = list_ascii_of_string "2048x1024" /\
  read_texture_dimensions (istream_of (write_texture_dimensions dims)) before
  = ({| unread := []; eofbit := true; failbit := false |}, dims).
Proof.
  intros dims before.
  assert (Hw : size_t_value (tex_width dims))
    by (unfold size_t_value, SizeT.modulus; cbn; lia).
  assert (Hh : size_t_value (tex_height dims))
    by (unfold size_t_value, SizeT.modulus; cbn; lia).
  split; [exact Hw|]. split; [exact Hh|]. split; [reflexivity|].
  exact (texture_dimensions_round_trip dims before Hw Hh).
Defined.

Lemma codepoint_range_without_separator_witness :
  let rest := list_ascii_of_string ":70" in
  let before := {| range_begin := 0; range_end := 65536 |} in
  let result := read_codepoint_range (istream_of (write_size_t 65 ++ rest))
                                     before in
  size_t_value 65 /\ no_digit_ahead rest /\
  hd_error rest <> Some "-"%char /\
  snd result = {| range_begin := 65; range_end := 65536 |} /\
  unread (fst result) = tl rest /\
  failbit (fst result) = at_end rest.
Proof.
  intros rest before result.
  assert (Hn : size_t_value 65)
    by (unfold size_t_value, SizeT.modulus; cbn; lia).
  assert (Hno : no_digit_ahead rest) by reflexivity.
  assert (Hsep : hd_error rest <> Some "-"%char) by (cbn; discriminate).
  split; [exact Hn|]. split; [exact Hno|]. split; [exact Hsep|].
  exact (codepoint_range_without_separator 65 rest before Hn Hno Hsep).
Defined.

Lemma codepoint_ranges_text_ambiguous_witness :
  let one := [ {| range_begin := 1; range_end := 23 |};
               {| range_begin := 4; range_end := 5 |} ] in
  let other := [ {| range_begin := 1; range_end := 2 |};
                 {| range_begin := 34; range_end := 5 |} ] in
  size_t_value (10 * 2 + 3) /\
  size_t_value (3 * 10 ^ Z.of_nat (List.length (write_size_t 4)) + 4) /\
  write_codepoint_ranges one = list_ascii_of_string "{1-234-5}" /\
  one <> other /\
  write_codepoint_ranges one = write_codepoint_ranges other.
Proof.
  intros one other.
  assert (H1 : size_t_value (10 * 2 + 3))
    by (unfold size_t_value, SizeT.modulus; cbn; lia).
  assert (H2 : size_t_value
                 (3 * 10 ^ Z.of_nat (List.length (write_size_t 4)) + 4))
    by (unfold size_t_value, SizeT.modulus; cbn; lia).
  split; [exact H1|]. split; [exact H2|]. split; [reflexivity|].
  exact (codepoint_ranges_text_ambiguous 1 2 4 5 3
           ltac:(lia) ltac:(lia) ltac:(lia) H1 H2).
Defined.
